(** * ChopChop scan engine: signatures, response matcher, blocking policy

    A shallow embedding of [core/signatures.go] (signature model and the
    response matcher) and [app/scan.go] (validation, scan orchestration
    and the CI blocking decision), with the properties of the
    specification stated and proved over it. *)

From Stdlib Require Import ZArith Ascii String.
From stdpp Require Import gmap strings list fin_maps.


(** ** The parts of Go's [strings] package the program calls *)

Module GoStrings.

(** [strings.HasPrefix]. *)
Fixpoint HasPrefix (s prefix : string) : bool :=
  match prefix, s with
  | EmptyString, _ => true
  | String a p, String b s' => if Ascii.eqb a b then HasPrefix s' p else false
  | String _ _, EmptyString => false
  end.

(** [strings.Contains s substr]: [substr] occurs in [s] as a run of
    consecutive bytes; the empty string occurs everywhere. *)
Fixpoint Contains (s substr : string) : bool :=
  HasPrefix s substr
  || match s with
     | EmptyString => false
     | String _ s' => Contains s' substr
     end.

(** [strings.Split s sep] for a non-empty separator: the pieces of [s]
    between the occurrences of [sep], from left to right.  [cur] is the
    piece being read and [skip] the number of bytes of a separator that
    are still to be passed over. *)
Fixpoint splitFrom (sep : string) (skip : nat) (cur s : string) : list string :=
  match s with
  | EmptyString => [cur]
  | String c s' =>
      match skip with
      | S k => splitFrom sep k cur s'
      | O =>
          if HasPrefix s sep
          then cur :: splitFrom sep (String.length sep - 1) "" s'
          else splitFrom sep 0 (cur +:+ String c "") s'
      end
  end.

Definition Split (s sep : string) : list string := splitFrom sep 0 "" s.

(** The byte-wise lowering of the ASCII path of [strings.ToLower]. *)
Definition isUpper (c : ascii) : bool :=
  (65 <=? nat_of_ascii c)%nat && (nat_of_ascii c <=? 90)%nat.

Definition lowerByte (c : ascii) : ascii :=
  if isUpper c then ascii_of_nat (nat_of_ascii c + 32) else c.

Fixpoint lowerBytes (s : string) : string :=
  match s with
  | EmptyString => EmptyString
  | String c s' => String (lowerByte c) (lowerBytes s')
  end.

(** A string is ASCII when every byte is below [utf8.RuneSelf] (0x80). *)
Fixpoint isASCII (s : string) : bool :=
  match s with
  | EmptyString => true
  | String c s' => (nat_of_ascii c <? 128)%nat && isASCII s'
  end.

End GoStrings.

(** What the program takes from the Go runtime and standard library
    without fixing it: the Unicode case mapping [strings.ToLower] applies
    to a string that is not pure ASCII, and the capacity [append] gives a
    backing array it has to reallocate (at least the length asked for). *)
Class GoRuntime := {
  unicodeToLower : string → string;
  growCap : nat → nat;
}.

(** [strings.ToLower]: ASCII strings are lowered byte by byte, all others
    go through the Unicode mapping. *)
Definition ToLower `{GoRuntime} (s : string) : string :=
  if GoStrings.isASCII s then GoStrings.lowerBytes s else unicodeToLower s.

(** ** [internal.HTTPResponse], as [Match] reads it *)

Module internal.

(** Modelled from the spec: the probe response of the [internal]
    package, whose declaration is not part of the sources at hand: a
    status code (a Go [int]), the decoded body and the header multimap
    ([http.Header], a [map[string][]string] with case-sensitive keys). *)
Record HTTPResponse := {
  StatusCode : Z;
  Body : string;
  Header : gmap string (list string);
}.

End internal.

(** Conversion of a Go [int] to [int32]: the low 32 bits, read as a signed
    number. *)
Definition int32 (x : Z) : Z := ((x + 2 ^ 31) mod 2 ^ 32 - 2 ^ 31)%Z.

(** ** [core/signatures.go]: the response matcher *)

Module core.

Import GoStrings.

Record Check := {
  MustMatchOne : list string;
  MustMatchAll : list string;
  MustNotMatch : list string;
  StatusCode : option Z;          (* [*int32]; [None] is the nil pointer *)
  Name : string;
  Remediation : string;
  Severity : string;
  Description : string;
  Headers : list string;
  NoHeaders : list string;
}.

(** How a call ends: it returns a boolean, or it panics (an index out
    of range). *)
Inductive result := Returns (b : bool) | Panics.

(** A block of the function body either falls through to the next
    statement ([None]) or ends the call. *)
Definition flow := option result.

Definition andThen (a : flow) (k : result) : result :=
  match a with
  | None => k
  | Some r => r
  end.

Notation "a ;;; k" := (andThen a k) (at level 100, k at level 200, right associativity).

(** [for _, match := range check.MustMatchAll]: the first string that
    is not in the body ends the call with [false]. *)
Fixpoint mustMatchAllLoop (body : string) (l : list string) : flow :=
  match l with
  | [] => None
  | m :: l' =>
      if negb (Contains body m) then Some (Returns false)
      else mustMatchAllLoop body l'
  end.

(** The loop over [check.MustMatchOne]: it runs to the end and leaves
    the flag [found]. *)
Fixpoint mustMatchOneLoop (body : string) (l : list string) (found : bool) : bool :=
  match l with
  | [] => found
  | m :: l' => mustMatchOneLoop body l' (if Contains body m then true else found)
  end.

Fixpoint mustNotMatchLoop (body : string) (l : list string) : flow :=
  match l with
  | [] => None
  | m :: l' =>
      if Contains body m then Some (Returns false)
      else mustNotMatchLoop body l'
  end.

(** [for _, n := range v { if strings.Contains(n, p[1]) {...} }]: the
    index expression [p[1]] is evaluated at every iteration, so the loop
    panics at its first iteration when [p] has a single element, and
    not at all when [v] is empty.  [None] is the panic. *)
Fixpoint valuesLoop (p : list string) (v : list string) (vFound : bool) : option bool :=
  match v with
  | [] => Some vFound
  | n :: v' =>
      match p !! 1%nat with
      | None => None
      | Some sub => valuesLoop p v' (if Contains n sub then true else vFound)
      end
  end.

(** A map read [v, ok := m[k]]: the zero value (a nil slice) and
    [false] when the key is absent. *)
Definition lookup2 (m : gmap string (list string)) (k : string) : list string * bool :=
  match m !! k with
  | Some v => (v, true)
  | None => ([], false)
  end.

(** [for _, header := range check.Headers]. *)
Fixpoint headersLoop (hdr : gmap string (list string)) (l : list string) : flow :=
  match l with
  | [] => None
  | header :: l' =>
      let pHeaders := Split header ":" in
      match pHeaders !! 0%nat with
      | None => Some Panics
      | Some name =>
          let '(v, kFound) := lookup2 hdr name in
          if kFound then
            match valuesLoop pHeaders v false with
            | None => Some Panics
            | Some vFound =>
                if negb vFound then Some (Returns false)
                else headersLoop hdr l'
            end
          else Some (Returns false)
      end
  end.

(** The innermost loop of the [NoHeaders] block, which returns [false]
    at the first value that contains [p[1]]. *)
Fixpoint noValuesLoop (p : list string) (v : list string) : flow :=
  match v with
  | [] => None
  | n :: v' =>
      match p !! 1%nat with
      | None => Some Panics
      | Some sub =>
          if Contains n sub then Some (Returns false)
          else noValuesLoop p v'
      end
  end.

(** [for _, header := range check.NoHeaders], with its three branches
    in the order of the source. *)
Fixpoint noHeadersLoop (hdr : gmap string (list string)) (l : list string) : flow :=
  match l with
  | [] => None
  | header :: l' =>
      let pNoHeaders := Split header ":" in
      match pNoHeaders !! 0%nat with
      | None => Some Panics
      | Some name =>
          let '(v, kFound) := lookup2 hdr name in
          if kFound then Some (Returns false)
          else if kFound && (length pNoHeaders =? 1)%nat then Some (Returns false)
          else
            match noValuesLoop pNoHeaders v with
            | Some r => Some r
            | None => noHeadersLoop hdr l'
            end
      end
  end.

(** [func (check *Check) Match(resp *internal.HTTPResponse) bool]. *)
Definition Match (check : Check) (resp : internal.HTTPResponse) : result :=
  (match StatusCode check with
   | Some code =>
       if negb (int32 (internal.StatusCode resp) =? code)%Z
       then Some (Returns false) else None
   | None => None
   end) ;;;
  mustMatchAllLoop (internal.Body resp) (MustMatchAll check) ;;;
  (if (0 <? length (MustMatchOne check))%nat then
     let found := mustMatchOneLoop (internal.Body resp) (MustMatchOne check) false in
     if negb found then Some (Returns false) else None
   else None) ;;;
  (if (0 <? length (MustNotMatch check))%nat
   then mustNotMatchLoop (internal.Body resp) (MustNotMatch check)
   else None) ;;;
  (if (0 <? length (Headers check))%nat
   then headersLoop (internal.Header resp) (Headers check)
   else None) ;;;
  (if (0 <? length (NoHeaders check))%nat
   then noHeadersLoop (internal.Header resp) (NoHeaders check)
   else None) ;;;
  Returns true.

(** *** The signature model, with Go's pointers and slices

    [Signatures.Plugins] is a [[]*Plugin] and [Plugin.Checks] a
    [[]*Check]: slices of pointers over backing arrays that every copy
    of the slice value shares.  The filters write through both, so the
    model keeps the objects and the backing arrays in a store. *)

Definition loc := nat.

(** The nil pointer: no object or array lives at it. *)
Definition nil : loc := 0.

(** A slice value: the backing array and the offset of its first
    element in it, its length and its capacity. *)
Record slice := {
  s_arr : loc;
  s_off : nat;
  s_len : nat;
  s_cap : nat;
}.

Record Plugin := {
  Endpoints : list string;
  Endpoint : string;
  QueryString : string;
  Checks : slice;
  FollowRedirects : bool;
}.

Record Signatures := {
  Plugins : slice;
}.

Record Heap := {
  checkObjs : gmap loc Check;
  pluginObjs : gmap loc Plugin;
  sigObjs : gmap loc Signatures;
  checkArrs : gmap loc (list loc);     (* backing arrays of [[]*Check] *)
  pluginArrs : gmap loc (list loc);    (* backing arrays of [[]*Plugin] *)
  next : loc;                          (* the next address [append] allocates *)
}.

(** The two kinds of backing arrays, so that indexing and [append] are
    written once. *)
Inductive kind := OfChecks | OfPlugins.

Definition arrays (k : kind) (h : Heap) : gmap loc (list loc) :=
  match k with
  | OfChecks => checkArrs h
  | OfPlugins => pluginArrs h
  end.

Definition setArrays (k : kind) (m : gmap loc (list loc)) (h : Heap) : Heap :=
  match k with
  | OfChecks =>
      {| checkObjs := checkObjs h; pluginObjs := pluginObjs h; sigObjs := sigObjs h;
         checkArrs := m; pluginArrs := pluginArrs h; next := next h |}
  | OfPlugins =>
      {| checkObjs := checkObjs h; pluginObjs := pluginObjs h; sigObjs := sigObjs h;
         checkArrs := checkArrs h; pluginArrs := m; next := next h |}
  end.

Definition setPluginObjs (m : gmap loc Plugin) (h : Heap) : Heap :=
  {| checkObjs := checkObjs h; pluginObjs := m; sigObjs := sigObjs h;
     checkArrs := checkArrs h; pluginArrs := pluginArrs h; next := next h |}.

Definition setSigObjs (m : gmap loc Signatures) (h : Heap) : Heap :=
  {| checkObjs := checkObjs h; pluginObjs := pluginObjs h; sigObjs := m;
     checkArrs := checkArrs h; pluginArrs := pluginArrs h; next := next h |}.

Definition setNext (n : loc) (h : Heap) : Heap :=
  {| checkObjs := checkObjs h; pluginObjs := pluginObjs h; sigObjs := sigObjs h;
     checkArrs := checkArrs h; pluginArrs := pluginArrs h; next := n |}.

(** The elements a slice value shows in a given store: positions
    [s_off .. s_off + s_len) of its backing array. *)
Definition readSlice (arrs : gmap loc (list loc)) (sl : slice) : option (list loc) :=
  if (s_len sl =? 0)%nat then Some []
  else
    match arrs !! s_arr sl with
    | Some arr =>
        if (s_off sl + s_len sl <=? length arr)%nat
        then Some (take (s_len sl) (drop (s_off sl) arr))
        else None
    | None => None
    end.

(** A computation on the store that may panic ([None]). *)
Definition M (A : Type) : Type := Heap → option (A * Heap).

Definition ret {A} (a : A) : M A := λ h, Some (a, h).

Definition bind {A B} (m : M A) (k : A → M B) : M B :=
  λ h, match m h with
       | Some (a, h') => k a h'
       | None => None
       end.

Notation "'let*' x := m 'in' k" := (bind m (λ x, k))
  (at level 10, x name, m at level 100, k at level 200).
Notation "m1 >> m2" := (bind m1 (λ _, m2))
  (at level 100, m2 at level 200, right associativity).

(** Dereferencing: a pointer with no object behind it is nil, and the
    access panics. *)
Definition loadCheck (c : loc) : M Check :=
  λ h, match checkObjs h !! c with Some v => Some (v, h) | None => None end.

Definition loadPlugin (p : loc) : M Plugin :=
  λ h, match pluginObjs h !! p with Some v => Some (v, h) | None => None end.

Definition loadSignatures (s : loc) : M Signatures :=
  λ h, match sigObjs h !! s with Some v => Some (v, h) | None => None end.

(** [plugin.Checks = sl]. *)
Definition storeChecks (p : loc) (sl : slice) : M unit :=
  λ h, match pluginObjs h !! p with
       | Some pl =>
           let pl' := {| Endpoints := Endpoints pl; Endpoint := Endpoint pl;
                         QueryString := QueryString pl; Checks := sl;
                         FollowRedirects := FollowRedirects pl |} in
           Some (tt, setPluginObjs (<[p := pl']> (pluginObjs h)) h)
       | None => None
       end.

(** [s.Plugins = sl]. *)
Definition storePlugins (s : loc) (sl : slice) : M unit :=
  λ h, match sigObjs h !! s with
       | Some _ => Some (tt, setSigObjs (<[s := {| Plugins := sl |}]> (sigObjs h)) h)
       | None => None
       end.

(** [sl[i]]. *)
Definition index (k : kind) (sl : slice) (i : nat) : M loc :=
  λ h, if (i <? s_len sl)%nat then
         match arrays k h !! s_arr sl with
         | Some arr =>
             match arr !! (s_off sl + i)%nat with
             | Some x => Some (x, h)
             | None => None
             end
         | None => None
         end
       else None.

(** [sl[:0]]: same backing array and capacity, no element. *)
Definition resliceEmpty (sl : slice) : slice :=
  {| s_arr := s_arr sl; s_off := s_off sl; s_len := 0; s_cap := s_cap sl |}.

(** [append(sl, x)]: within the capacity the element is written into
    the backing array just after the last one, whoever else reads that
    array; beyond it the elements move to a fresh array. *)
Definition append `{GoRuntime} (k : kind) (sl : slice) (x : loc) : M slice :=
  λ h, if (s_len sl <? s_cap sl)%nat then
         match arrays k h !! s_arr sl with
         | Some arr =>
             let arr' := <[(s_off sl + s_len sl)%nat := x]> arr in
             Some ({| s_arr := s_arr sl; s_off := s_off sl;
                      s_len := S (s_len sl); s_cap := s_cap sl |},
                   setArrays k (<[s_arr sl := arr']> (arrays k h)) h)
         | None => None
         end
       else
         match readSlice (arrays k h) sl with
         | Some old =>
             let c := Nat.max (growCap (S (s_len sl))) (S (s_len sl)) in
             let arr' := (old ++ x :: replicate (c - S (s_len sl)) nil)%list in
             Some ({| s_arr := next h; s_off := 0; s_len := S (s_len sl); s_cap := c |},
                   setNext (S (next h))
                     (setArrays k (<[next h := arr']> (arrays k h)) h))
         | None => None
         end.

(** [for _, x := range sl { acc = body(x, acc) }]: the slice value is
    read once, before the loop; each element is read from the backing
    array when its turn comes.  [n] counts the iterations left and [i]
    is the index of the next one. *)
Fixpoint rangeFrom {A} (k : kind) (sl : slice) (body : loc → A → M A)
    (n i : nat) (acc : A) : M A :=
  match n with
  | O => ret acc
  | S n' =>
      let* x := index k sl i in
      let* acc' := body x acc in
      rangeFrom k sl body n' (S i) acc'
  end.

Definition range {A} (k : kind) (sl : slice) (body : loc → A → M A) (acc : A) : M A :=
  rangeFrom k sl body (s_len sl) 0 acc.

(** [func (s *Signatures) FilterBySeverity(severityFilter string)]. *)
Definition FilterBySeverity `{GoRuntime} (s : loc) (severityFilter : string) : M unit :=
  let* sg := loadSignatures s in
  let filteredPlugins := resliceEmpty (Plugins sg) in
  let* filteredPlugins :=
    range OfPlugins (Plugins sg) (λ plugin filteredPlugins,
      let* pl := loadPlugin plugin in
      let filteredChecks := resliceEmpty (Checks pl) in
      let* filteredChecks :=
        range OfChecks (Checks pl) (λ check filteredChecks,
          let* ck := loadCheck check in
          if String.eqb (Severity ck) severityFilter
          then append OfChecks filteredChecks check
          else ret filteredChecks) filteredChecks in
      if (0 <? s_len filteredChecks)%nat then
        storeChecks plugin filteredChecks >>
        append OfPlugins filteredPlugins plugin
      else ret filteredPlugins) filteredPlugins in
  storePlugins s filteredPlugins.

(** [for _, name := range names { if ... { append; break } }]: the
    check is dereferenced when a name is compared with it. *)
Fixpoint namesLoop `{GoRuntime} (check : loc) (names : list string)
    (filteredChecks : slice) : M slice :=
  match names with
  | [] => ret filteredChecks
  | name :: names' =>
      let* ck := loadCheck check in
      if Contains (ToLower (Name ck)) (ToLower name)
      then append OfChecks filteredChecks check
      else namesLoop check names' filteredChecks
  end.

(** [func (s *Signatures) FilterByNames(names []string)]. *)
Definition FilterByNames `{GoRuntime} (s : loc) (names : list string) : M unit :=
  let* sg := loadSignatures s in
  let filteredPlugins := resliceEmpty (Plugins sg) in
  let* filteredPlugins :=
    range OfPlugins (Plugins sg) (λ plugin filteredPlugins,
      let* pl := loadPlugin plugin in
      let filteredChecks := resliceEmpty (Checks pl) in
      let* filteredChecks :=
        range OfChecks (Checks pl) (λ check filteredChecks,
          namesLoop check names filteredChecks) filteredChecks in
      if (0 <? s_len filteredChecks)%nat then
        storeChecks plugin filteredChecks >>
        append OfPlugins filteredPlugins plugin
      else ret filteredPlugins) filteredPlugins in
  storePlugins s filteredPlugins.

(** [func NewSignatures() *Signatures]: a fresh [Signatures] whose
    [Plugins] is the nil slice. *)
Definition NewSignatures : M loc :=
  λ h, Some (next h,
             setNext (S (next h))
               (setSigObjs
                  (<[next h := {| Plugins := {| s_arr := nil; s_off := 0;
                                                s_len := 0; s_cap := 0 |} |}]>
                     (sigObjs h)) h)).

End core.

(** ** Package [data], as [app/scan.go] uses it *)

Module data.

(** Modelled from the spec: the severity type of package [data], whose
    declaration is not part of the sources at hand: a string type with
    the four levels [Informational], [Low], [Medium] and [High] as its
    constants. *)
Definition SeverityType := string.

Definition Informational : SeverityType := "Informational".
Definition Low : SeverityType := "Low".
Definition Medium : SeverityType := "Medium".
Definition High : SeverityType := "High".

(** Modelled from the spec: [SeverityType.IsValid], absent from the
    sources at hand: an error for every string that is not one of the
    four levels, [nil] ([None]) for the four. *)
Definition IsValid (s : SeverityType) : option string :=
  if String.eqb s Informational || String.eqb s Low
     || String.eqb s Medium || String.eqb s High
  then None
  else Some "Invalid severity type".

(** Modelled from the spec: the configuration records of package
    [data], with the fields [app/scan.go] reads; a pointer field is an
    [option], [None] for nil (the key is absent from the YAML file). *)
Record Check := {
  PluginName : string;
  Description : option string;
  Remediation : option string;
  Severity : option SeverityType;
}.

Record Plugin := {
  URI : string;
  QueryString : string;
  FollowRedirects : option bool;
  Checks : list Check;
}.

Record Config := {
  Insecure : bool;
  Plugins : list Plugin;
}.

(** [data.Output], one record per hit. *)
Record Output := {
  out_Domain : string;
  out_PluginName : string;
  out_TestedURL : string;
  out_Severity : string;
  out_Remediation : string;
}.

End data.

(** What [app/scan.go] takes from package [pkg]: the response type of
    [pkg.HTTPGet] and the matcher [pkg.ResponseAnalysis]. *)
Class Pkg := {
  Response : Type;
  ResponseAnalysis : Response → data.Check → bool;
}.

(** ** [app/scan.go] *)

Module app.

(** [func BlockCI(severity string, severityType data.SeverityType) bool]:
    a [switch] on the threshold, each case falling out to the final
    [return false]. *)
Definition BlockCI (severity : string) (severityType : data.SeverityType) : bool :=
  if String.eqb severity "High" then
    if String.eqb severityType data.High then true else false
  else if String.eqb severity "Medium" then
    if String.eqb severityType data.High || String.eqb severityType data.Medium
    then true else false
  else if String.eqb severity "Low" then
    if String.eqb severityType data.High || String.eqb severityType data.Medium
       || String.eqb severityType data.Low
    then true else false
  else if String.eqb severity "Informational" then
    if String.eqb severityType data.High || String.eqb severityType data.Medium
       || String.eqb severityType data.Low || String.eqb severityType data.Informational
    then true else false
  else false.

(** The body of the inner loop of [CheckStructFields] for one check:
    [Some msg] when [log.Fatal msg] is called, which prints the message
    and ends the process with status 1. *)
Definition checkFields (check : data.Check) : option string :=
  match data.Description check with
  | None => Some ("Missing description field in " +:+ data.PluginName check
                  +:+ " plugin checks. Stopping execution.")
  | Some _ =>
      match data.Remediation check with
      | None => Some ("Missing remediation field in " +:+ data.PluginName check
                      +:+ " plugin checks. Stopping execution.")
      | Some _ =>
          match data.Severity check with
          | None => Some ("Missing severity field in " +:+ data.PluginName check
                          +:+ " plugin checks. Stopping execution.")
          | Some sev =>
              match data.IsValid sev with
              | Some _ =>
                  Some (" ------ Unknown severity type : " +:+ sev
                        +:+ " . Only Informational / Low / Medium / High are valid severity types.")
              | None => None
              end
          end
      end
  end.

Fixpoint checksFieldsLoop (checks : list data.Check) : option string :=
  match checks with
  | [] => None
  | check :: checks' =>
      match checkFields check with
      | Some msg => Some msg
      | None => checksFieldsLoop checks'
      end
  end.

Fixpoint pluginsFieldsLoop (plugins : list data.Plugin) : option string :=
  match plugins with
  | [] => None
  | plugin :: plugins' =>
      match checksFieldsLoop (data.Checks plugin) with
      | Some msg => Some msg
      | None => pluginsFieldsLoop plugins'
      end
  end.

(** [func CheckStructFields(conf data.Config)]. *)
Definition CheckStructFields (conf : data.Config) : option string :=
  pluginsFieldsLoop (data.Plugins conf).

(** *** [Scan] *)

(** The command-line flags the scan itself reads. *)
Record Flags := {
  insecure : bool;
  suffix : string;
  prefix : string;
  httpRequestTimeout : Z;
  blockedFlag : string;
}.

(** The variables of [Scan] that its goroutines share. *)
Record Shared := {
  tmpURL : string;
  hit : bool;
  block : bool;
  out : list data.Output;
}.

(** Where a goroutine [go func(domain string) {...}(urlList[i])] is. *)
Inductive pc :=
| LoopHead (plugins : list data.Plugin)
    (* at the head of [for _, plugin := range y.Plugins], these remain *)
| CallGet (plugin : data.Plugin) (followRedirects : bool) (plugins : list data.Plugin)
    (* [tmpURL] is assigned; [pkg.HTTPGet] is about to be called *)
| InGet (plugin : data.Plugin) (url : string) (plugins : list data.Plugin)
    (* inside [pkg.HTTPGet]: the request for [url] is in flight *)
| Done.
    (* the deferred [wg.Done()] has run *)

Record goroutine := {
  domain : string;
  at_pc : pc;
}.

Record state := {
  i : nat;                   (* the counter of the launching loop *)
  gs : list goroutine;       (* the goroutines launched, in order *)
  shared : Shared;
  crashed : bool;            (* a goroutine panicked on a nil pointer *)
}.

Section Scan.

Context `{Pkg}.
Variable y : data.Config.
Variable flags : Flags.
Variable urlList : list string.

(** Lines 100-103: the URL of a plugin for a domain. *)
Definition buildURL (dom : string) (plugin : data.Plugin) : string :=
  let u := prefix flags +:+ dom +:+ suffix flags +:+ data.URI plugin in
  if negb (String.eqb (data.QueryString plugin) "")
  then u +:+ "?" +:+ data.QueryString plugin
  else u.

(** Lines 105-110. *)
Definition followRedirectsOf (plugin : data.Plugin) : bool :=
  match data.FollowRedirects plugin with
  | Some false => false
  | _ => true
  end.

(** Lines 119-136: the checks of the plugin against one response.
    [None] is the panic of dereferencing a nil [Severity] or
    [Remediation]. *)
Fixpoint checksLoop (dom : string) (plugin : data.Plugin) (resp : Response)
    (checks : list data.Check) (sh : Shared) : option Shared :=
  match checks with
  | [] => Some sh
  | check :: checks' =>
      if ResponseAnalysis resp check then
        match data.Severity check, data.Remediation check with
        | Some sev, Some rem =>
            checksLoop dom plugin resp checks'
              {| tmpURL := tmpURL sh;
                 hit := true;
                 block := if BlockCI (blockedFlag flags) sev then true else block sh;
                 out := out sh ++
                        [ {| data.out_Domain := dom;
                             data.out_PluginName := data.PluginName check;
                             data.out_TestedURL := data.URI plugin;
                             data.out_Severity := sev;
                             data.out_Remediation := rem |} ] |}
        | _, _ => None
        end
      else checksLoop dom plugin resp checks' sh
  end.

(** Lines 87-89. *)
Definition init : state :=
  {| i := 0; gs := [];
     shared := {| tmpURL := ""; hit := false; block := false; out := [] |};
     crashed := false |}.

Definition setPc (st : state) (j : nat) (g : goroutine) (p : pc) (sh : Shared) : state :=
  {| i := i st;
     gs := <[j := {| domain := domain g; at_pc := p |}]> (gs st);
     shared := sh;
     crashed := crashed st |}.

Definition setTmpURL (sh : Shared) (u : string) : Shared :=
  {| tmpURL := u; hit := hit sh; block := block sh; out := out sh |}.

(** One step of the scan between line 94 and [wg.Wait()]: the
    launching loop starts the next goroutine, or one of the
    goroutines started moves on.  A request is in flight from the
    step that calls [pkg.HTTPGet] to the step at which it returns,
    with a response or with none (an error). *)
Inductive step : state → state → Prop :=
| step_go st dom :
    crashed st = false →
    urlList !! i st = Some dom →
    step st {| i := S (i st);
               gs := gs st ++ [ {| domain := dom; at_pc := LoopHead (data.Plugins y) |} ];
               shared := shared st; crashed := false |}
| step_assign st j g plugin plugins :
    crashed st = false →
    gs st !! j = Some g →
    at_pc g = LoopHead (plugin :: plugins) →
    step st (setPc st j g (CallGet plugin (followRedirectsOf plugin) plugins)
               (setTmpURL (shared st) (buildURL (domain g) plugin)))
| step_call st j g plugin fr plugins :
    crashed st = false →
    gs st !! j = Some g →
    at_pc g = CallGet plugin fr plugins →
    step st (setPc st j g (InGet plugin (tmpURL (shared st)) plugins) (shared st))
| step_no_response st j g plugin url plugins :
    crashed st = false →
    gs st !! j = Some g →
    at_pc g = InGet plugin url plugins →
    step st (setPc st j g (LoopHead plugins) (shared st))
| step_response st j g plugin url plugins resp sh :
    crashed st = false →
    gs st !! j = Some g →
    at_pc g = InGet plugin url plugins →
    checksLoop (domain g) plugin resp (data.Checks plugin) (shared st) = Some sh →
    step st (setPc st j g (LoopHead plugins) sh)
| step_panic st j g plugin url plugins resp :
    crashed st = false →
    gs st !! j = Some g →
    at_pc g = InGet plugin url plugins →
    checksLoop (domain g) plugin resp (data.Checks plugin) (shared st) = None →
    step st {| i := i st; gs := gs st; shared := shared st; crashed := true |}
| step_done st j g :
    crashed st = false →
    gs st !! j = Some g →
    at_pc g = LoopHead [] →
    step st (setPc st j g Done (shared st)).

(** The states of a scan: those the steps lead to from [init]. *)
Inductive reachable : state → Prop :=
| reach_init : reachable init
| reach_step st st' : reachable st → step st st' → reachable st'.

(** The number of requests in flight. *)
Definition isInGet (g : goroutine) : bool :=
  match at_pc g with
  | InGet _ _ _ => true
  | _ => false
  end.

Definition inFlight (st : state) : nat := length (List.filter isInGet (gs st)).

Definition isDone (g : goroutine) : bool :=
  match at_pc g with
  | Done => true
  | _ => false
  end.

(** [wg.Wait()] returns: every goroutine was launched and has run its
    [wg.Done()]. *)
Definition waited (st : state) : bool :=
  (i st =? length urlList)%nat && forallb isDone (gs st) && negb (crashed st).

End Scan.

(** How [Scan] ends: by [os.Exit] with a status, or by returning to its
    caller. *)
Inductive ending := Exit (code : Z) | Return.

(** Lines 159-170. *)
Definition finish (flags : Flags) (sh : Shared) : ending :=
  if hit sh then
    if negb (String.eqb (blockedFlag flags) "") && negb (block sh)
    then Exit 0
    else Exit 1
  else Return.

(** The status of the process: the one given to [os.Exit], and 0 when
    [Scan] returns and the command ends without an error. *)
Definition exitStatus (e : ending) : Z :=
  match e with
  | Exit code => code
  | Return => 0%Z
  end.

(** [Scan] from line 86 on: validation first, which ends the process
    through [log.Fatal] (status 1) or lets the scan start from
    [init]. *)
Inductive started := Aborted (msg : string) | Launched (st : state).

Definition Scan (y : data.Config) : started :=
  match CheckStructFields y with
  | Some msg => Aborted msg
  | None => Launched init
  end.

End app.

(** ** The [plugins] command of the command line *)

Module main.

Import core.

(** A row of the table: [plugin.Endpoints], [check.Name],
    [check.Severity] and [check.Description]. *)
Record Row := {
  row_URL : list string;
  row_Name : string;
  row_Severity : string;
  row_Description : string;
}.

(** The table being filled: the rows appended so far and the counter
    [cpt]. *)
Record Table := {
  rows : list Row;
  cpt : nat;
}.

(** [cmdPlugins] from the counter on: [sign] is the signature set parsed
    from the file and [sevStr] the severity asked for, as
    [sev.String()] gives it.  The result is the table when the footer is
    appended. *)
Definition cmdPlugins (sign : loc) (sevStr : string) : M Table :=
  let* sg := loadSignatures sign in
  let t := {| rows := []; cpt := 0 |} in
  range OfPlugins (Plugins sg) (λ plugin t,
    let* pl := loadPlugin plugin in
    range OfChecks (Checks pl) (λ check t,
      let* ck := loadCheck check in
      if String.eqb sevStr (Severity ck)
      then ret {| rows := rows t ++ [ {| row_URL := Endpoints pl;
                                         row_Name := Name ck;
                                         row_Severity := Severity ck;
                                         row_Description := Description ck |} ];
                  cpt := S (cpt t) |}
      else ret t) t) t.

End main.

(** ** The notions of the specification *)

Module Spec.

(** *** Severities and the blocking threshold *)

(** The severity scale Informational < Low < Medium < High: the place
    of a level on it, and nothing for any other string. *)
Definition severityRank (s : string) : option nat :=
  if String.eqb s "Informational" then Some 0
  else if String.eqb s "Low" then Some 1
  else if String.eqb s "Medium" then Some 2
  else if String.eqb s "High" then Some 3
  else None.

(** An observed severity reaches a threshold: both are levels of the
    scale and the severity is not below the threshold. *)
Definition reaches (threshold sev : string) : Prop :=
  ∃ t s, severityRank threshold = Some t ∧ severityRank sev = Some s ∧ (t ≤ s)%nat.

(** *** The matcher *)

(** The name part of a [name:substring] entry: what precedes its first
    colon, the whole entry when it has none. *)
Fixpoint namePart (e : string) : string :=
  match e with
  | EmptyString => EmptyString
  | String c e' => if Ascii.eqb c ":" then EmptyString else String c (namePart e')
  end.

Definition hasColon (e : string) : Prop := GoStrings.Contains e ":" = true.

(** A check with no condition configured. *)
Definition noConditions (c : core.Check) : Prop :=
  core.StatusCode c = None ∧ core.MustMatchAll c = [] ∧ core.MustMatchOne c = []
  ∧ core.MustNotMatch c = [] ∧ core.Headers c = [] ∧ core.NoHeaders c = [].

(** A check with the given [headers] and [no_headers] lists and no
    other condition, and a response given by its three fields. *)
Definition headerCheck (hs nhs : list string) : core.Check :=
  {| core.MustMatchOne := []; core.MustMatchAll := []; core.MustNotMatch := [];
     core.StatusCode := None; core.Name := "check"; core.Remediation := "";
     core.Severity := "High"; core.Description := "";
     core.Headers := hs; core.NoHeaders := nhs |}.

Definition response (code : Z) (body : string) (hdr : gmap string (list string))
    : internal.HTTPResponse :=
  {| internal.StatusCode := code; internal.Body := body; internal.Header := hdr |}.

(** *** Validation *)

(** A check that passes validation: description, remediation and
    severity are present, and the severity is a level of the scale. *)
Definition validCheck (c : data.Check) : Prop :=
  is_Some (data.Description c) ∧ is_Some (data.Remediation c)
  ∧ ∃ sev, data.Severity c = Some sev ∧ is_Some (severityRank sev).

(** A configuration whose only check has every field, with a severity
    that is not on the scale. *)
Definition unknownSeverityConfig : data.Config :=
  {| data.Insecure := false;
     data.Plugins :=
       [ {| data.URI := "/admin"; data.QueryString := "";
            data.FollowRedirects := None;
            data.Checks :=
              [ {| data.PluginName := "AdminPanel";
                   data.Description := Some "Admin panel exposed";
                   data.Remediation := Some "Restrict access";
                   data.Severity := Some "Critical" |} ] |} ] |}.

(** *** The scan *)

(** What the flags [hit] and [block] say about the hits recorded. *)
Definition flagsInv (flags : app.Flags) (sh : app.Shared) : Prop :=
  (app.hit sh = true ↔ app.out sh ≠ [])
  ∧ (app.block sh = true ↔
       ∃ o, o ∈ app.out sh
            ∧ app.BlockCI (app.blockedFlag flags) (data.out_Severity o) = true).

(** A scan never has more than [N] requests in flight. *)
Definition boundedInFlight `{Pkg} (N : nat) (y : data.Config) (flags : app.Flags)
    (urlList : list string) : Prop :=
  ∀ st, app.reachable y flags urlList st → app.inFlight st ≤ N.

(** A goroutine just launched for a domain. *)
Definition atHead (y : data.Config) (d : string) : app.goroutine :=
  {| app.domain := d; app.at_pc := app.LoopHead (data.Plugins y) |}.

(** A package [pkg] whose matcher answers yes to every check, a
    configuration with one plugin and one valid check, and flags with a
    given blocking threshold. *)
Definition yesPkg : Pkg := {| Response := unit; ResponseAnalysis := λ _ _, true |}.

Definition adminConfig : data.Config :=
  {| data.Insecure := false;
     data.Plugins :=
       [ {| data.URI := "/admin"; data.QueryString := "";
            data.FollowRedirects := None;
            data.Checks :=
              [ {| data.PluginName := "AdminPanel";
                   data.Description := Some "Admin panel exposed";
                   data.Remediation := Some "Restrict access";
                   data.Severity := Some "Medium" |} ] |} ] |}.

Definition flagsBlocking (threshold : string) : app.Flags :=
  {| app.insecure := false; app.suffix := ""; app.prefix := "https://";
     app.httpRequestTimeout := 10; app.blockedFlag := threshold |}.

(** The state in which the scan of the single domain "a.example" with
    [adminConfig] ends when its check matches: one hit of severity
    Medium, which does not reach the threshold High. *)
Definition oneHitState : app.state :=
  {| app.i := 1;
     app.gs := [ {| app.domain := "a.example"; app.at_pc := app.Done |} ];
     app.shared :=
       {| app.tmpURL := "https://a.example/admin";
          app.hit := true;
          app.block := false;
          app.out :=
            [ {| data.out_Domain := "a.example";
                 data.out_PluginName := "AdminPanel";
                 data.out_TestedURL := "/admin";
                 data.out_Severity := "Medium";
                 data.out_Remediation := "Restrict access" |} ] |};
     app.crashed := false |}.

(** *** The signature model seen through the store *)

(** A slice value with another length. *)
Definition withLen (sl : core.slice) (n : nat) : core.slice :=
  {| core.s_arr := core.s_arr sl; core.s_off := core.s_off sl;
     core.s_len := n; core.s_cap := core.s_cap sl |}.

(** A plugin with another [Checks] slice. *)
Definition setChecks (pl : core.Plugin) (sl : core.slice) : core.Plugin :=
  {| core.Endpoints := core.Endpoints pl; core.Endpoint := core.Endpoint pl;
     core.QueryString := core.QueryString pl; core.Checks := sl;
     core.FollowRedirects := core.FollowRedirects pl |}.

(** A backing array after [kept] was written over it from position
    [off] on: the elements before [off], then [kept], then the elements
    the array already had after them. *)
Definition compacted (kept : list core.loc) (off : nat) (arr : list core.loc)
    : list core.loc :=
  take off arr ++ kept ++ drop (off + length kept) arr.

(** The checks a plugin shows in a store. *)
Definition pluginChecks (h : core.Heap) (p : core.loc) : option (list core.loc) :=
  match core.pluginObjs h !! p with
  | Some pl => core.readSlice (core.checkArrs h) (core.Checks pl)
  | None => None
  end.

(** The plugins a [*Signatures] shows in a store. *)
Definition pluginList (h : core.Heap) (s : core.loc) : option (list core.loc) :=
  match core.sigObjs h !! s with
  | Some sg => core.readSlice (core.pluginArrs h) (core.Plugins sg)
  | None => None
  end.

(** The signature set behind a [*Signatures]: its plugins in order, each
    with its checks in order. *)
Definition view (h : core.Heap) (s : core.loc)
    : option (list (core.loc * list core.loc)) :=
  match pluginList h s with
  | Some ps =>
      mapM (λ p, match pluginChecks h p with
                 | Some cs => Some (p, cs)
                 | None => None
                 end) ps
  | None => None
  end.

(** A signature set as loading builds it: the slices lie within their
    backing arrays, no pointer is nil, no plugin occurs twice, and two
    plugins do not share the backing array of their checks. *)
Definition wf (h : core.Heap) (s : core.loc) : Prop :=
  ∃ sg ps,
    core.sigObjs h !! s = Some sg
    ∧ core.s_len (core.Plugins sg) ≤ core.s_cap (core.Plugins sg)
    ∧ core.readSlice (core.pluginArrs h) (core.Plugins sg) = Some ps
    ∧ NoDup ps
    ∧ (∀ p, p ∈ ps →
         ∃ pl cs, core.pluginObjs h !! p = Some pl
                  ∧ core.s_len (core.Checks pl) ≤ core.s_cap (core.Checks pl)
                  ∧ core.readSlice (core.checkArrs h) (core.Checks pl) = Some cs
                  ∧ ∀ c, c ∈ cs → is_Some (core.checkObjs h !! c))
    ∧ (∀ p q pl ql,
         p ∈ ps → q ∈ ps → p ≠ q →
         core.pluginObjs h !! p = Some pl → core.pluginObjs h !! q = Some ql →
         core.s_len (core.Checks pl) = 0 ∨ core.s_len (core.Checks ql) = 0
         ∨ core.s_arr (core.Checks pl) ≠ core.s_arr (core.Checks ql)).

(** The same, as a test that computes. *)
Definition pluginOk (h : core.Heap) (p : core.loc) : bool :=
  match core.pluginObjs h !! p with
  | Some pl =>
      (core.s_len (core.Checks pl) <=? core.s_cap (core.Checks pl))
      && match core.readSlice (core.checkArrs h) (core.Checks pl) with
         | Some cs => forallb (λ c, bool_decide (is_Some (core.checkObjs h !! c))) cs
         | None => false
         end
  | None => false
  end.

Definition apart (h : core.Heap) (p q : core.loc) : bool :=
  match core.pluginObjs h !! p, core.pluginObjs h !! q with
  | Some pl, Some ql =>
      (core.s_len (core.Checks pl) =? 0) || (core.s_len (core.Checks ql) =? 0)
      || negb (core.s_arr (core.Checks pl) =? core.s_arr (core.Checks ql))
  | _, _ => true
  end.

Definition wellFormed (h : core.Heap) (s : core.loc) : bool :=
  match core.sigObjs h !! s with
  | Some sg =>
      (core.s_len (core.Plugins sg) <=? core.s_cap (core.Plugins sg))
      && match core.readSlice (core.pluginArrs h) (core.Plugins sg) with
         | Some ps =>
             bool_decide (NoDup ps)
             && forallb (pluginOk h) ps
             && forallb (λ p, forallb (λ q, (p =? q) || apart h p q) ps) ps
         | None => false
         end
  | None => false
  end.

(** *** The filters *)

(** A filter call: by severity or by names. *)
Inductive filterCall :=
| BySeverity (severityFilter : string)
| ByNames (names : list string).

Definition runFilter `{GoRuntime} (call : filterCall) (s : core.loc) : core.M unit :=
  match call with
  | BySeverity severityFilter => core.FilterBySeverity s severityFilter
  | ByNames names => core.FilterByNames s names
  end.

(** The condition of a filter on a check: its severity is the one
    asked for; its lowered name contains one of the lowered names. *)
Definition keeps `{GoRuntime} (call : filterCall) (ck : core.Check) : bool :=
  match call with
  | BySeverity severityFilter => String.eqb (core.Severity ck) severityFilter
  | ByNames names =>
      existsb (λ name, GoStrings.Contains (ToLower (core.Name ck)) (ToLower name)) names
  end.

(** The condition on a pointer to a check. *)
Definition keepsPtr `{GoRuntime} (call : filterCall) (h : core.Heap) (c : core.loc) : bool :=
  match core.checkObjs h !! c with
  | Some ck => keeps call ck
  | None => false
  end.

(** The checks of a plugin that a filter keeps, and whether it keeps the
    plugin: at least one of its checks is kept. *)
Definition keptChecks `{GoRuntime} (call : filterCall) (h : core.Heap) (p : core.loc)
    : list core.loc :=
  match pluginChecks h p with
  | Some cs => List.filter (keepsPtr call h) cs
  | None => []
  end.

Definition keepsPlugin `{GoRuntime} (call : filterCall) (h : core.Heap) (p : core.loc) : bool :=
  (0 <? length (keptChecks call h p)).

(** Filtering a signature set, as the specification has it: every
    plugin loses the checks that fail the condition, and the plugins left
    without a check are dropped. *)
Definition filterSet (keep : core.loc → bool) (v : list (core.loc * list core.loc))
    : list (core.loc * list core.loc) :=
  List.filter (λ pc, (0 <? length pc.2))
    (List.map (λ pc, (pc.1, List.filter keep pc.2)) v).

(** The slices taken from a signature set before a filter call show
    their old contents after it: the plugin list and the check list of
    every plugin. *)
Definition aliasesKeepContents `{GoRuntime} (call : filterCall) (h : core.Heap)
    (s : core.loc) : Prop :=
  ∀ h', runFilter call s h = Some (tt, h') →
    (∀ sg, core.sigObjs h !! s = Some sg →
           core.readSlice (core.pluginArrs h') (core.Plugins sg)
           = core.readSlice (core.pluginArrs h) (core.Plugins sg))
    ∧ (∀ p pl, core.pluginObjs h !! p = Some pl →
               core.readSlice (core.checkArrs h') (core.Checks pl)
               = core.readSlice (core.checkArrs h) (core.Checks pl)).

(** The body both filters run for a check, as a decision followed by
    the [append]. *)
Definition decideCheck `{GoRuntime} (call : filterCall) (check : core.loc) : core.M bool :=
  match call with
  | BySeverity severityFilter =>
      core.bind (core.loadCheck check)
        (λ ck, core.ret (String.eqb (core.Severity ck) severityFilter))
  | ByNames names =>
      (fix go (names : list string) : core.M bool :=
         match names with
         | [] => core.ret false
         | name :: names' =>
             core.bind (core.loadCheck check)
               (λ ck, if GoStrings.Contains (ToLower (core.Name ck)) (ToLower name)
                      then core.ret true
                      else go names')
         end) names
  end.

(** The body both filters run for a plugin, as a decision followed by
    the [append]. *)
Definition decidePlugin `{GoRuntime} (call : filterCall) (plugin : core.loc) : core.M bool :=
  core.bind (core.loadPlugin plugin) (λ pl,
  core.bind (core.range core.OfChecks (core.Checks pl)
               (λ check acc,
                  core.bind (decideCheck call check)
                    (λ b, if b then core.append core.OfChecks acc check else core.ret acc))
               (core.resliceEmpty (core.Checks pl))) (λ filteredChecks,
  if (0 <? core.s_len filteredChecks)
  then core.bind (core.storeChecks plugin filteredChecks) (λ _, core.ret true)
  else core.ret false)).

(** Both filters are the same two nested loops around their decision. *)
Definition filterShape `{GoRuntime} (call : filterCall) (s : core.loc) : core.M unit :=
  core.bind (core.loadSignatures s) (λ sg,
  core.bind (core.range core.OfPlugins (core.Plugins sg)
               (λ plugin acc,
                  core.bind (decidePlugin call plugin)
                    (λ b, if b then core.append core.OfPlugins acc plugin
                          else core.ret acc))
               (core.resliceEmpty (core.Plugins sg))) (λ filteredPlugins,
  core.storePlugins s filteredPlugins)).

(** A plugin of the set in [h0], seen in a later store [h]: as it was
    when the filter has not visited it; once visited, its backing array
    holds the kept checks and then its old elements, and its [Checks]
    slice is the shortened one when a check was kept. *)
Definition pluginAfter `{GoRuntime} (call : filterCall) (h0 h : core.Heap)
    (visited : bool) (q : core.loc) : Prop :=
  ∃ ql cs,
    core.pluginObjs h0 !! q = Some ql
    ∧ core.readSlice (core.checkArrs h0) (core.Checks ql) = Some cs
    ∧ let kept := List.filter (keepsPtr call h0) cs in
      if visited then
        core.pluginObjs h !! q
          = Some (if (0 <? length kept)
                  then setChecks ql (withLen (core.Checks ql) (length kept))
                  else ql)
        ∧ core.readSlice (core.checkArrs h) (core.Checks ql)
          = Some (kept ++ drop (length kept) cs)
      else
        core.pluginObjs h !! q = Some ql
        ∧ core.readSlice (core.checkArrs h) (core.Checks ql) = Some cs.

(** *** Occurrence up to ASCII case *)




(** *** A signature set to run the filters on *)

(** A runtime for the examples: strings that are not ASCII are left as
    they are, and a reallocated array doubles. *)
Definition exampleRuntime : GoRuntime :=
  {| unicodeToLower := λ s, s; growCap := λ n, 2 * n |}.

Definition namedCheck (name severity : string) : core.Check :=
  {| core.MustMatchOne := []; core.MustMatchAll := []; core.MustNotMatch := [];
     core.StatusCode := None; core.Name := name; core.Remediation := "";
     core.Severity := severity; core.Description := "";
     core.Headers := []; core.NoHeaders := [] |}.

(** The slice over a whole array of [n] elements. *)
Definition wholeSlice (a : core.loc) (n : nat) : core.slice :=
  {| core.s_arr := a; core.s_off := 0; core.s_len := n; core.s_cap := n |}.

Definition pluginAt (endpoint : string) (checks : core.slice) : core.Plugin :=
  {| core.Endpoints := []; core.Endpoint := endpoint; core.QueryString := "";
     core.Checks := checks; core.FollowRedirects := true |}.

(** Three plugins (at 10, 11, 12) over three checks (at 1, 2, 3); the
    [*Signatures] is at 40. *)
Definition exampleHeap : core.Heap :=
  {| core.checkObjs :=
       {[ 1 := namedCheck "Admin-Panel" "High";
          2 := namedCheck "Panel" "Low";
          3 := namedCheck "AdminPanel " "High" ]};
     core.pluginObjs :=
       {[ 10 := pluginAt "/admin" (wholeSlice 20 2);
          11 := pluginAt "/panel" (wholeSlice 21 1);
          12 := pluginAt "/console" (wholeSlice 22 2) ]};
     core.sigObjs := {[ 40 := {| core.Plugins := wholeSlice 30 3 |} ]};
     core.checkArrs := {[ 20 := [1; 2]; 21 := [2]; 22 := [2; 3] ]};
     core.pluginArrs := {[ 30 := [10; 11; 12] ]};
     core.next := 50 |}.

(** *** The conditions of a check, one by one *)

(** What follows the first colon of an entry, when it has one. *)
Fixpoint afterColon (e : string) : option string :=
  match e with
  | EmptyString => None
  | String c e' => if Ascii.eqb c ":" then Some e' else afterColon e'
  end.

(** The substring part of a [name:substring] entry, as the matcher
    takes it: what lies between the first colon and the next one (or the
    end of the entry). *)
Definition valuePart (e : string) : option string := namePart <$> afterColon e.

(** The six conditions of a check on a response. *)
Definition conditions (c : core.Check) (r : internal.HTTPResponse) : Prop :=
  (∀ code, core.StatusCode c = Some code → int32 (internal.StatusCode r) = code)
  ∧ (∀ m, m ∈ core.MustMatchAll c → GoStrings.Contains (internal.Body r) m = true)
  ∧ (core.MustMatchOne c = []
     ∨ ∃ m, m ∈ core.MustMatchOne c ∧ GoStrings.Contains (internal.Body r) m = true)
  ∧ (∀ m, m ∈ core.MustNotMatch c → GoStrings.Contains (internal.Body r) m = false)
  ∧ (∀ e, e ∈ core.Headers c →
       ∃ v sub n, internal.Header r !! namePart e = Some v
                  ∧ valuePart e = Some sub
                  ∧ n ∈ v ∧ GoStrings.Contains n sub = true)
  ∧ (∀ e, e ∈ core.NoHeaders c → internal.Header r !! namePart e = None).

(** Two entries with the same name part and the same substring part. *)
Definition sameParts (e e' : string) : Prop :=
  namePart e = namePart e' ∧ valuePart e = valuePart e'.

(** *** What a filter call leaves alone *)

(** A later store [h] has allocated nothing since [h0] and agrees with
    it on every plugin outside [ps] and on every backing array of
    checks that no plugin of [ps] with a check uses. *)
Definition outside (h0 h : core.Heap) (ps : list core.loc) : Prop :=
  core.next h = core.next h0
  ∧ (∀ q, q ∉ ps → core.pluginObjs h !! q = core.pluginObjs h0 !! q)
  ∧ (∀ a, (∀ q ql, q ∈ ps → core.pluginObjs h0 !! q = Some ql →
                   0 < core.s_len (core.Checks ql) → a ≠ core.s_arr (core.Checks ql)) →
          core.checkArrs h !! a = core.checkArrs h0 !! a).

(** *** The table of the [plugins] command *)

(** The row of a check of a plugin. *)
Definition rowOf (pl : core.Plugin) (ck : core.Check) : main.Row :=
  {| main.row_URL := core.Endpoints pl; main.row_Name := core.Name ck;
     main.row_Severity := core.Severity ck;
     main.row_Description := core.Description ck |}.

(** The rows of a list of checks of a plugin, and of a signature set:
    one for each check of each plugin, in order. *)
Definition checkRows (h : core.Heap) (pl : core.Plugin) (cs : list core.loc)
    : list main.Row :=
  c ← cs;
  match core.checkObjs h !! c with
  | Some ck => [rowOf pl ck]
  | None => []
  end.

Definition rowsOf (h : core.Heap) (v : list (core.loc * list core.loc)) : list main.Row :=
  pc ← v;
  match core.pluginObjs h !! pc.1 with
  | Some pl => checkRows h pl pc.2
  | None => []
  end.

(** *** The scan, goroutine by goroutine *)

(** The plugins a goroutine has still to deal with, the one in hand
    first. *)
Definition pcPlugins (p : app.pc) : list data.Plugin :=
  match p with
  | app.LoopHead plugins => plugins
  | app.CallGet plugin _ plugins | app.InGet plugin _ plugins => plugin :: plugins
  | app.Done => []
  end.

(** A goroutine of the scan of [urlList] with [y]: its domain is one of
    the list and its plugins are plugins of [y]. *)
Definition goroutineOf (y : data.Config) (urlList : list string) (g : app.goroutine)
    : Prop :=
  app.domain g ∈ urlList
  ∧ Forall (λ plugin, plugin ∈ data.Plugins y) (pcPlugins (app.at_pc g)).

(** A check the goroutines cannot record a hit of: its severity or its
    remediation is nil. *)
Definition unrecordable (check : data.Check) : Prop :=
  data.Severity check = None ∨ data.Remediation check = None.

(** A record of a hit that a scan of [urlList] with [y] can make: its
    domain is one of the list, and its other fields are those of a check
    of a plugin of [y] that matched some response, the tested URL being
    the URI of the plugin as configured. *)
Definition recordedHit `{Pkg} (y : data.Config) (urlList : list string)
    (o : data.Output) : Prop :=
  ∃ plugin check resp,
    data.out_Domain o ∈ urlList
    ∧ plugin ∈ data.Plugins y ∧ check ∈ data.Checks plugin
    ∧ ResponseAnalysis resp check = true
    ∧ data.out_PluginName o = data.PluginName check
    ∧ data.out_TestedURL o = data.URI plugin
    ∧ data.Severity check = Some (data.out_Severity o)
    ∧ data.Remediation check = Some (data.out_Remediation o).

(** A goroutine whose request, when it has one in flight, is for the
    URL of its own domain and plugin; and one that holds in [tmpURL],
    between the assignment and the call, the URL of its own domain and
    plugin. *)
Definition requestsOwnURL (flags : app.Flags) (g : app.goroutine) : Prop :=
  match app.at_pc g with
  | app.InGet plugin url _ => url = app.buildURL flags (app.domain g) plugin
  | _ => True
  end.

Definition holdsOwnURL (flags : app.Flags) (sh : app.Shared) (g : app.goroutine) : Prop :=
  match app.at_pc g with
  | app.CallGet plugin _ _ => app.tmpURL sh = app.buildURL flags (app.domain g) plugin
  | _ => True
  end.

(** The state of the scan of the single domain "a.example" with
    [adminConfig] while the request of its plugin is in flight. *)
Definition requestState : app.state :=
  {| app.i := 1;
     app.gs :=
       [ {| app.domain := "a.example";
            app.at_pc :=
              app.InGet
                {| data.URI := "/admin"; data.QueryString := "";
                   data.FollowRedirects := None;
                   data.Checks :=
                     [ {| data.PluginName := "AdminPanel";
                          data.Description := Some "Admin panel exposed";
                          data.Remediation := Some "Restrict access";
                          data.Severity := Some "Medium" |} ] |}
                "https://a.example/admin" [] |} ];
     app.shared :=
       {| app.tmpURL := "https://a.example/admin"; app.hit := false;
          app.block := false; app.out := [] |};
     app.crashed := false |}.

(** *** The filters on an arbitrary signature set *)


(** A filter call as the specification has it, on whatever signature
    set a [*Signatures] shows: the call returns, and the set it leaves
    is the one it was given, filtered. *)
Definition filtersSet `{GoRuntime} (call : filterCall) (h : core.Heap) (s : core.loc)
    : Prop :=
  ∀ v, view h s = Some v →
    ∃ h1, runFilter call s h = Some (tt, h1)
          ∧ view h1 s = Some (filterSet (keepsPtr call h) v).

(** A signature set whose only plugin (at 10) has two checks, the
    second a nil pointer. *)
Definition nilCheckHeap : core.Heap :=
  {| core.checkObjs := {[ 1 := namedCheck "Admin-Panel" "High" ]};
     core.pluginObjs := {[ 10 := pluginAt "/admin" (wholeSlice 20 2) ]};
     core.sigObjs := {[ 40 := {| core.Plugins := wholeSlice 30 1 |} ]};
     core.checkArrs := {[ 20 := [1; core.nil] ]};
     core.pluginArrs := {[ 30 := [10] ]};
     core.next := 50 |}.

(** Two plugins whose checks are slices of one backing array
    [arr = [1; 2; 3]]: the plugin at 10 has [arr[1:3]], the checks at 2
    and 3, and the plugin at 11 has [arr[0:2]], the checks at 1 and 2. *)
Definition sharedHeap : core.Heap :=
  {| core.checkObjs :=
       {[ 1 := namedCheck "Admin-Panel" "High";
          2 := namedCheck "Panel" "Low";
          3 := namedCheck "AdminPanel " "High" ]};
     core.pluginObjs :=
       {[ 10 := pluginAt "/console"
                  {| core.s_arr := 20; core.s_off := 1; core.s_len := 2; core.s_cap := 2 |};
          11 := pluginAt "/admin"
                  {| core.s_arr := 20; core.s_off := 0; core.s_len := 2; core.s_cap := 3 |} ]};
     core.sigObjs := {[ 40 := {| core.Plugins := wholeSlice 30 2 |} ]};
     core.checkArrs := {[ 20 := [1; 2; 3] ]};
     core.pluginArrs := {[ 30 := [10; 11] ]};
     core.next := 50 |}.

End Spec.

(** * Proofs *)

(** ** The response matcher *)

Section MatchFacts.

Import GoStrings core Spec.

Lemma append_cons a s t : String a s +:+ t = String a (s +:+ t).
Proof. reflexivity. Qed.

Lemma append_empty_r s : s +:+ "" = s.
Proof. induction s as [|a s IH]; [done|]. by rewrite append_cons, IH. Qed.

Lemma append_snoc s c t : (s +:+ String c "") +:+ t = s +:+ String c t.
Proof. induction s as [|a s IH]; [done|]. by rewrite !append_cons, IH. Qed.

Lemma HasPrefix_empty s : HasPrefix s "" = true.
Proof. by destruct s. Qed.

Lemma HasPrefix_colon c s : HasPrefix (String c s) ":" = Ascii.eqb ":" c.
Proof.
  cbn [HasPrefix]. rewrite HasPrefix_empty. by destruct (Ascii.eqb ":" c).
Qed.

Lemma splitFrom_head cur e :
  splitFrom ":" 0 cur e !! 0%nat = Some (cur +:+ namePart e).
Proof.
  revert cur. induction e as [|c e IH]; intros cur.
  - cbn [splitFrom namePart]. by rewrite append_empty_r.
  - cbn [splitFrom namePart]. rewrite HasPrefix_colon, Ascii.eqb_sym.
    destruct (Ascii.eqb c ":").
    + by rewrite append_empty_r.
    + by rewrite IH, append_snoc.
Qed.

Lemma Split_head e : Split e ":" !! 0%nat = Some (namePart e).
Proof. unfold Split. by rewrite splitFrom_head. Qed.

Lemma splitFrom_second cur e :
  Contains e ":" = true → is_Some (splitFrom ":" 0 cur e !! 1%nat).
Proof.
  revert cur. induction e as [|c e IH]; intros cur Hc.
  - discriminate.
  - cbn [splitFrom]. cbn [Contains] in Hc. rewrite HasPrefix_colon in *.
    destruct (Ascii.eqb ":" c).
    + change (String.length ":" - 1) with 0.
      change ((?x :: ?l) !! 1%nat) with (l !! 0%nat).
      rewrite splitFrom_head. eauto.
    + apply IH. exact Hc.
Qed.

Lemma splitFrom_no_colon cur e :
  Contains e ":" = false → splitFrom ":" 0 cur e = [cur +:+ e].
Proof.
  revert cur. induction e as [|c e IH]; intros cur Hc.
  - cbn [splitFrom]. by rewrite append_empty_r.
  - cbn [splitFrom]. cbn [Contains] in Hc. rewrite HasPrefix_colon in *.
    destruct (Ascii.eqb ":" c); [discriminate|].
    rewrite IH by exact Hc. by rewrite append_snoc.
Qed.

Lemma Split_no_colon e : Contains e ":" = false → Split e ":" = [e].
Proof. apply splitFrom_no_colon. Qed.

Lemma namePart_no_colon e : Contains e ":" = false → namePart e = e.
Proof.
  intros Hc. pose proof (Split_head e) as Hh.
  rewrite Split_no_colon in Hh by done. by injection Hh.
Qed.

Lemma valuesLoop_total p v b : is_Some (p !! 1%nat) → is_Some (valuesLoop p v b).
Proof.
  intros [sub Hs]. revert b. induction v as [|n v IH]; intros b; simpl; [eauto|].
  rewrite Hs. apply IH.
Qed.

Lemma headersLoop_total hdr l :
  Forall hasColon l → headersLoop hdr l ≠ Some Panics.
Proof.
  induction 1 as [|e l He _ IH]; [done|].
  cbn [headersLoop]. rewrite Split_head.
  unfold lookup2. destruct (hdr !! namePart e) as [v|]; [|done].
  destruct (valuesLoop_total (Split e ":") v false) as [b ->].
  { by apply splitFrom_second. }
  by destruct b.
Qed.

(** The [NoHeaders] block never reads [p[1]]: it returns [false] as
    soon as the name of an entry is a key of the header map, and falls
    through when none is. *)
Lemma noHeadersLoop_spec hdr l :
  noHeadersLoop hdr l =
    if existsb (λ e, bool_decide (is_Some (hdr !! namePart e))) l
    then Some (Returns false) else None.
Proof.
  induction l as [|e l IH]; [done|].
  cbn [noHeadersLoop existsb]. rewrite Split_head. unfold lookup2.
  destruct (hdr !! namePart e) as [v|] eqn:E.
  - rewrite bool_decide_eq_true_2 by eauto. done.
  - rewrite bool_decide_eq_false_2 by (intros [? ?]; done). simpl. exact IH.
Qed.

End MatchFacts.

Section MatchTheorems.

Import GoStrings core Spec.

(** Every block before the [NoHeaders] one either falls through or ends
    the call with [false], the [Headers] block possibly with a panic. *)
Lemma mustMatchAllLoop_cases body l :
  mustMatchAllLoop body l = None ∨ mustMatchAllLoop body l = Some (Returns false).
Proof.
  induction l as [|m l IH]; [by left|]. cbn [mustMatchAllLoop].
  destruct (negb (Contains body m)); [by right | exact IH].
Qed.

Lemma mustNotMatchLoop_cases body l :
  mustNotMatchLoop body l = None ∨ mustNotMatchLoop body l = Some (Returns false).
Proof.
  induction l as [|m l IH]; [by left|]. cbn [mustNotMatchLoop].
  destruct (Contains body m); [by right | exact IH].
Qed.

Lemma headersLoop_cases hdr l :
  headersLoop hdr l = None ∨ headersLoop hdr l = Some (Returns false)
  ∨ headersLoop hdr l = Some Panics.
Proof.
  induction l as [|e l IH]; [by left|]. cbn [headersLoop].
  destruct (Split e ":" !! 0%nat); [|by right; right].
  destruct (lookup2 hdr s) as [v [|]]; [|by right; left].
  destruct (valuesLoop (Split e ":") v false) as [[|]|];
    [exact IH | by right; left | by right; right].
Qed.

Lemma Match_forbidden_cases c r e :
  e ∈ NoHeaders c →
  is_Some (internal.Header r !! namePart e) →
  Match c r = Returns false
  ∨ (Match c r = Panics ∧ headersLoop (internal.Header r) (Headers c) = Some Panics).
Proof.
  intros Hin Hkey. unfold Match.
  destruct (StatusCode c) as [code|];
    [destruct (negb (int32 (internal.StatusCode r) =? code)%Z); [by left|]|];
  (destruct (mustMatchAllLoop_cases (internal.Body r) (MustMatchAll c)) as [-> | ->];
     [|by left]);
  cbn [andThen];
  (destruct (0 <? length (MustMatchOne c))%nat;
     [destruct (negb (mustMatchOneLoop (internal.Body r) (MustMatchOne c) false));
        [by left|]|]);
  cbn [andThen];
  (destruct (0 <? length (MustNotMatch c))%nat;
     [destruct (mustNotMatchLoop_cases (internal.Body r) (MustNotMatch c)) as [-> | ->];
        [|by left]|]);
  cbn [andThen].
  all: assert (noHeadersLoop (internal.Header r) (NoHeaders c) = Some (Returns false)) as Hno
    by (rewrite noHeadersLoop_spec;
        replace (existsb _ _) with true; [done|];
        symmetry; apply existsb_exists; exists e; split;
        [by apply list_elem_of_In | by apply bool_decide_eq_true_2]).
  all: assert ((0 <? length (NoHeaders c))%nat = true) as ->
    by (apply Nat.ltb_lt; destruct (NoHeaders c); [by apply elem_of_nil in Hin | simpl; lia]).
  all: rewrite Hno.
  all: destruct (0 <? length (Headers c))%nat; [|by left].
  all: destruct (headersLoop_cases (internal.Header r) (Headers c)) as [-> | [-> | E]];
    [by left | by left | rewrite E; by right].
Qed.

(** C1, as amended: when the header map of the response has the name
    part of some [no_headers] entry as a key, [Match] never returns
    [true], whatever the values of that header are; it returns [false]
    whenever every [headers] entry has its colon, so that the
    evaluation of the headers-required block cannot panic before the
    headers-forbidden block is reached. *)
Theorem Match_forbidden_header_present c r e :
  e ∈ NoHeaders c →
  is_Some (internal.Header r !! namePart e) →
  Match c r ≠ Returns true
  ∧ (Forall hasColon (Headers c) → Match c r = Returns false).
Proof.
  intros Hin Hkey.
  destruct (Match_forbidden_cases c r e Hin Hkey) as [-> | [-> Hp]].
  - split; [done | done].
  - split; [done|]. intros Hcol. by destruct (headersLoop_total (internal.Header r) _ Hcol).
Qed.

Lemma Match_forbidden_header_present_witness :
  Match (headerCheck ["Server:nginx"] ["X-Powered-By:PHP"])
        (response 200 "" {[ "Server" := ["nginx/1.2"]; "X-Powered-By" := ["Express"] ]})
  = Returns false.
Proof.
  apply (Match_forbidden_header_present _ _ "X-Powered-By:PHP").
  - vm_compute. apply list_elem_of_here.
  - vm_compute. eauto.
  - repeat constructor.
Defined.

(** C1, as stated, fails: the forbidden header is present, and the call
    panics in the headers-required block instead of returning
    [false]. *)
Lemma Match_forbidden_header_counterexample :
  let c := headerCheck ["X"] ["X:a"] in
  let r := response 200 "" {[ "X" := ["v"] ]} in
  "X:a" ∈ NoHeaders c
  ∧ is_Some (internal.Header r !! namePart "X:a")
  ∧ Match c r = Panics
  ∧ Match c r ≠ Returns false.
Proof.
  cbv zeta. split; [apply list_elem_of_here|].
  split; [vm_compute; eauto|].
  split; [by vm_compute | by vm_compute].
Qed.

(** C8: a check with no condition configured matches every response. *)
Theorem Match_no_conditions c r :
  noConditions c → Match c r = Returns true.
Proof.
  intros (Hs & Ha & Ho & Hn & Hh & Hnh). unfold Match.
  by rewrite Hs, Ha, Ho, Hn, Hh, Hnh.
Qed.

Lemma Match_no_conditions_witness :
  Match (headerCheck [] []) (response 404 "Not Found" {[ "Server" := ["nginx"] ]})
  = Returns true.
Proof. apply Match_no_conditions. by repeat split. Defined.

(** C10: [Match] returns a boolean for every response when every entry
    of [Headers] has a colon; an entry without one that is a key of the
    header map with at least one value makes the call panic on
    [pHeaders[1]]. *)
Theorem Match_total_only_with_colons :
  (∀ c r, Forall hasColon (Headers c) → ∃ b, Match c r = Returns b)
  ∧ (∀ entry v vs rest nhs code body,
       Contains entry ":" = false →
       Match (headerCheck (entry :: rest) nhs)
             (response code body {[ entry := v :: vs ]}) = Panics).
Proof.
  split.
  - intros c r Hcol.
    destruct (Match c r) as [b|] eqn:E; [eauto|]. exfalso.
    revert E. unfold Match.
    destruct (StatusCode c) as [code|];
      [destruct (negb (int32 (internal.StatusCode r) =? code)%Z); [done|]|];
    (destruct (mustMatchAllLoop_cases (internal.Body r) (MustMatchAll c)) as [-> | ->];
       [|done]);
    cbn [andThen];
    (destruct (0 <? length (MustMatchOne c))%nat;
       [destruct (negb (mustMatchOneLoop (internal.Body r) (MustMatchOne c) false));
          [done|]|]);
    cbn [andThen];
    (destruct (0 <? length (MustNotMatch c))%nat;
       [destruct (mustNotMatchLoop_cases (internal.Body r) (MustNotMatch c)) as [-> | ->];
          [|done]|]);
    cbn [andThen].
    all: rewrite noHeadersLoop_spec.
    all: pose proof (headersLoop_total (internal.Header r) _ Hcol) as Hh.
    all: destruct (0 <? length (Headers c))%nat;
      [destruct (headersLoop_cases (internal.Header r) (Headers c)) as [-> | [-> | E]];
         [|done|done]|].
    all: cbn [andThen]; destruct (0 <? length (NoHeaders c))%nat; [|done].
    all: by destruct (existsb _ _).
  - intros entry v vs rest nhs code body Hc.
    unfold Match, headerCheck, response. cbn -[Split Contains].
    rewrite Split_no_colon by done. cbn -[Contains].
    unfold lookup2. by rewrite lookup_singleton_eq.
Qed.

Lemma Match_total_only_with_colons_witness :
  (∃ b, Match (headerCheck ["Server:nginx"] []) (response 200 "" ∅) = Returns b)
  ∧ Match (headerCheck ["Server"] []) (response 200 "" {[ "Server" := ["nginx"] ]}) = Panics.
Proof.
  destruct Match_total_only_with_colons as [Htot Hpanic]. split.
  - apply Htot. repeat constructor.
  - apply (Hpanic "Server" "nginx" [] [] [] 200%Z ""). reflexivity.
Defined.

End MatchTheorems.

(** ** The blocking policy and validation *)

Ltac string_cases :=
  repeat match goal with
         | |- context [String.eqb ?a ?b] =>
             destruct (String.eqb_spec a b); try subst; try discriminate; cbn [orb]
         end.

Section Blocking.

Import app Spec.

(** The levels of the scale are the strings [severityRank] places. *)
Lemma severityRank_Some s n :
  severityRank s = Some n →
  (s = "Informational" ∧ n = 0) ∨ (s = "Low" ∧ n = 1)
  ∨ (s = "Medium" ∧ n = 2) ∨ (s = "High" ∧ n = 3).
Proof.
  unfold severityRank. string_cases; intros [= <-]; tauto.
Qed.

Lemma severityRank_None s :
  severityRank s = None →
  s ≠ "Informational" ∧ s ≠ "Low" ∧ s ≠ "Medium" ∧ s ≠ "High".
Proof.
  unfold severityRank. by string_cases.
Qed.

Lemma BlockCI_reaches threshold sev :
  BlockCI threshold sev = true ↔ reaches threshold sev.
Proof.
  split.
  - unfold BlockCI, data.High, data.Medium, data.Low, data.Informational.
    string_cases; intros _;
      eexists _, _; (split; [reflexivity|split; [reflexivity|lia]]).
  - intros (t & s & Ht & Hs & Hle).
    apply severityRank_Some in Ht as [[-> ->]|[[-> ->]|[[-> ->]|[-> ->]]]];
      apply severityRank_Some in Hs as [[-> ->]|[[-> ->]|[[-> ->]|[-> ->]]]];
      try lia; reflexivity.
Qed.

(** C2: the blocking decision is a function of the threshold and the
    observed severity alone, true exactly when both are levels of the
    scale Informational < Low < Medium < High and the severity is at or
    above the threshold; with the empty threshold it is never true. *)
Theorem BlockCI_threshold (threshold : string) (sev : data.SeverityType) :
  (BlockCI threshold sev = true ↔
     ∃ t s, severityRank threshold = Some t ∧ severityRank sev = Some s ∧ (t ≤ s)%nat)
  ∧ BlockCI "" sev = false.
Proof. split; [apply BlockCI_reaches | reflexivity]. Qed.

End Blocking.

Section Validation.

Import app Spec.

Lemma IsValid_None sev : data.IsValid sev = None ↔ is_Some (severityRank sev).
Proof.
  unfold data.IsValid, severityRank, data.Informational, data.Low, data.Medium, data.High.
  string_cases; split; (done || eauto || by intros [? ?]).
Qed.

Lemma checkFields_None check : checkFields check = None ↔ validCheck check.
Proof.
  unfold checkFields, validCheck.
  destruct (data.Description check), (data.Remediation check),
    (data.Severity check) as [sev|]; try (split; [done | by intros ([??]&[??]&?&?&?)]).
  destruct (data.IsValid sev) eqn:E.
  - split; [done|]. intros (_ & _ & sev' & [= <-] & Hr).
    apply IsValid_None in Hr. congruence.
  - apply IsValid_None in E. split; [|done]. intros _. eauto 6.
Qed.

Lemma checksFieldsLoop_None checks :
  checksFieldsLoop checks = None ↔ Forall validCheck checks.
Proof.
  induction checks as [|c l IH]; [by split|]. cbn [checksFieldsLoop].
  rewrite Forall_cons, <- IH, <- checkFields_None.
  destruct (checkFields c); [split; [done | by intros [? ?]] | tauto].
Qed.

(** Validation lets a configuration pass exactly when every check of
    every plugin has its description, its remediation and a severity of
    the scale. *)
Lemma CheckStructFields_None conf :
  CheckStructFields conf = None ↔
  Forall (λ plugin, Forall validCheck (data.Checks plugin)) (data.Plugins conf).
Proof.
  unfold CheckStructFields.
  induction (data.Plugins conf) as [|p l IH]; [by split|]. cbn [pluginsFieldsLoop].
  rewrite Forall_cons, <- IH, <- checksFieldsLoop_None.
  destruct (checksFieldsLoop (data.Checks p)); [split; [done | by intros [? ?]] | tauto].
Qed.

(** The scan is launched, from the state in which no request has been
    issued, exactly when validation passes; otherwise the process ends
    in [log.Fatal] and no scan state exists. *)
Lemma Scan_validates_first conf :
  (Forall (λ plugin, Forall validCheck (data.Checks plugin)) (data.Plugins conf)
   → Scan conf = Launched init)
  ∧ (¬ Forall (λ plugin, Forall validCheck (data.Checks plugin)) (data.Plugins conf)
     → ∃ msg, Scan conf = Aborted msg).
Proof.
  unfold Scan. split.
  - intros Hv. apply CheckStructFields_None in Hv. by rewrite Hv.
  - intros Hv. destruct (CheckStructFields conf) eqn:E; [eauto|].
    by apply CheckStructFields_None in E.
Qed.

(** C9, at the failing input: a check with all three fields and the
    severity "Critical" makes validation abort the scan, with a message
    that shows the severity but not the name of the plugin or check. *)
Theorem CheckStructFields_unknown_severity :
  Scan unknownSeverityConfig =
    Aborted " ------ Unknown severity type : Critical . Only Informational / Low / Medium / High are valid severity types."
  ∧ (∀ msg, Scan unknownSeverityConfig = Aborted msg →
            GoStrings.Contains msg "AdminPanel" = false).
Proof.
  split; [reflexivity|]. intros msg [= <-]. reflexivity.
Qed.

End Validation.

(** ** The scan: exit status and requests in flight *)

Section ScanFacts.

Import app Spec.
Context `{Pkg}.
Variable y : data.Config.
Variable flags : Flags.
Variable urlList : list string.

Lemma flagsInv_checksLoop dom plugin resp checks sh sh' :
  flagsInv flags sh →
  checksLoop flags dom plugin resp checks sh = Some sh' →
  flagsInv flags sh'.
Proof.
  revert sh. induction checks as [|c l IH]; intros sh Hinv; cbn [checksLoop].
  - by intros [= <-].
  - destruct (ResponseAnalysis resp c); [|by apply IH].
    destruct (data.Severity c) as [sev|]; [|done].
    destruct (data.Remediation c) as [rem|]; [|done].
    apply IH. destruct Hinv as [Hh Hb]. split; cbn.
    + split; [intros _ | done]. by destruct (out sh).
    + split.
      * destruct (BlockCI (blockedFlag flags) sev) eqn:E.
        -- intros _. eexists. split; [apply elem_of_app; right; apply list_elem_of_here|].
           exact E.
        -- intros Hbl. apply Hb in Hbl as (o & Ho & Hs).
           exists o. split; [apply elem_of_app; by left | done].
      * intros (o & Ho & Hs). apply elem_of_app in Ho as [Ho|Ho].
        -- destruct (BlockCI (blockedFlag flags) sev); [done|]. apply Hb. eauto.
        -- apply list_elem_of_singleton in Ho as ->. cbn in Hs. by rewrite Hs.
Qed.

Lemma flagsInv_step st st' :
  step y flags urlList st st' → flagsInv flags (shared st) → flagsInv flags (shared st').
Proof.
  destruct 1; cbn; try done.
  intros Hinv. eapply flagsInv_checksLoop; eauto.
Qed.

Lemma flagsInv_reachable st :
  reachable y flags urlList st → flagsInv flags (shared st).
Proof.
  induction 1 as [|st st' _ IH Hstep].
  - split; cbn; [done|]. split; [done|]. by intros (o & Ho%elem_of_nil & _).
  - by eapply flagsInv_step.
Qed.

(** C3: when [wg.Wait()] has returned, the exit status is non-zero
    exactly when at least one hit was recorded and either no threshold is
    configured or some hit reached it; it is zero when there is no hit,
    or when a threshold is configured and no hit reached it. *)
Theorem Scan_exit_status st :
  reachable y flags urlList st →
  waited urlList st = true →
  let hits := out (shared st) in
  let status := exitStatus (finish flags (shared st)) in
  (status ≠ 0%Z ↔
     hits ≠ [] ∧ (blockedFlag flags = ""
                  ∨ ∃ o, o ∈ hits ∧ reaches (blockedFlag flags) (data.out_Severity o)))
  ∧ (status = 0%Z ↔
       hits = [] ∨ (blockedFlag flags ≠ ""
                    ∧ ∀ o, o ∈ hits → ¬ reaches (blockedFlag flags) (data.out_Severity o))).
Proof.
  intros Hr _. cbv zeta. destruct (flagsInv_reachable st Hr) as [Hh Hb].
  unfold finish.
  assert (block (shared st) = true ↔
          ∃ o, o ∈ out (shared st) ∧ reaches (blockedFlag flags) (data.out_Severity o)) as Hb'.
  { rewrite Hb. by setoid_rewrite BlockCI_reaches. }
  clear Hb.
  destruct (hit (shared st)) eqn:Ehit.
  - assert (out (shared st) ≠ []) as Hne by by apply Hh.
    destruct (String.eqb_spec (blockedFlag flags) "") as [Hf|Hf]; cbn.
    + split; [split; [intros _; split; [done | by left] | done]|].
      split; [done|]. by intros [? | [? _]].
    + destruct (block (shared st)) eqn:Ebl; cbn.
      * destruct (proj1 Hb' eq_refl) as (o & Ho & Hre).
        split; [split; [intros _; split; [done | right; eauto] | done]|].
        split; [done|]. intros [? | [_ Hno]]; [done|]. by destruct (Hno o Ho).
      * split.
        -- split; [done|]. intros [_ [? | Hex]]; [done|].
           apply Hb' in Hex. done.
        -- split; [|done]. intros _. right. split; [done|].
           intros o Ho Hre. assert (false = true) by (apply Hb'; eauto). done.
  - assert (out (shared st) = []) as Hnil.
    { destruct (out (shared st)) eqn:E; [done|].
      assert (false = true) by by apply Hh. done. }
    cbn. split; [split; [done | by intros [? _]] | split; [by left | done]].
Qed.

(** Every goroutine launched belongs to a URL of the list. *)
Lemma launched_reachable st :
  reachable y flags urlList st → length (gs st) = i st ∧ i st ≤ length urlList.
Proof.
  induction 1 as [|st st' _ [IHl IHi] Hstep]; [cbn; lia|].
  destruct Hstep; cbn; rewrite ?length_insert, ?length_app; cbn; try lia.
  match goal with Hl : urlList !! _ = Some _ |- _ => apply lookup_lt_Some in Hl end.
  lia.
Qed.

Lemma inFlight_le_launched st : inFlight st ≤ length (gs st).
Proof. unfold inFlight. apply List.filter_length_le. Qed.

End ScanFacts.

Section InFlight.

Import app Spec.
Context `{Pkg}.
Variable y : data.Config.
Variable flags : Flags.
Variable urlList : list string.

(** The launching loop can run to its end before any goroutine moves. *)
Lemma launch_all k :
  k ≤ length urlList →
  reachable y flags urlList
    {| i := k; gs := atHead y <$> take k urlList; shared := shared init; crashed := false |}.
Proof.
  induction k as [|k IH]; intros Hk.
  - apply reach_init.
  - destruct (lookup_lt_is_Some_2 urlList k) as [d Hd]; [lia|].
    erewrite take_S_r, fmap_app by done.
    eapply reach_step; [apply IH; lia|].
    exact (step_go y flags urlList
      {| i := k; gs := atHead y <$> take k urlList; shared := shared init; crashed := false |}
      d eq_refl Hd).
Qed.

(** Then the goroutines can call [pkg.HTTPGet] one after the other, none
    waiting for another's request to return. *)
Lemma request_all plugin plugins j :
  data.Plugins y = plugin :: plugins →
  j ≤ length urlList →
  ∃ st, reachable y flags urlList st
        ∧ crashed st = false
        ∧ gs st = ((λ d, {| domain := d;
                             at_pc := InGet plugin (buildURL flags d plugin) plugins |})
                     <$> take j urlList)
                  ++ (atHead y <$> drop j urlList).
Proof.
  intros Hy. induction j as [|j IH]; intros Hj.
  - eexists. split; [apply (launch_all (length urlList)); lia|].
    split; [done|]. cbn. by rewrite take_ge, drop_0 by lia.
  - destruct IH as (st & Hr & Hc & Hgs); [lia|].
    destruct (lookup_lt_is_Some_2 urlList j) as [d Hd]; [lia|].
    assert (length ((λ d, {| domain := d;
                             at_pc := InGet plugin (buildURL flags d plugin) plugins |})
                     <$> take j urlList) = j) as Hlen
      by (rewrite length_fmap, length_take; lia).
    assert (gs st !! j = Some (atHead y d)) as Hg.
    { rewrite Hgs, lookup_app_r, Hlen, Nat.sub_diag by lia.
      by rewrite (drop_S _ _ _ Hd). }
    pose proof (step_assign y flags urlList st j (atHead y d) plugin plugins Hc Hg
                  (f_equal LoopHead Hy)) as S1.
    set (st1 := setPc _ _ _ _ _) in S1.
    assert (gs st1 !! j = Some {| domain := d;
              at_pc := CallGet plugin (followRedirectsOf plugin) plugins |}) as Hg1.
    { subst st1. cbn. apply list_lookup_insert_eq. by eapply lookup_lt_Some. }
    pose proof (step_call y flags urlList st1 j _ plugin _ plugins Hc Hg1 eq_refl) as S2.
    eexists. split; [eapply reach_step; [eapply reach_step; [exact Hr | exact S1] | exact S2]|].
    split; [done|]. subst st1. cbn.
    rewrite list_insert_insert_eq, Hgs.
    erewrite take_S_r, fmap_app by done.
    rewrite <- (Nat.add_0_r j) at 1. rewrite <- Hlen at 1.
    rewrite insert_app_r, (drop_S _ _ _ Hd). cbn.
    by rewrite <- app_assoc.
Qed.

Lemma filter_all_true {A} (f : A → bool) l :
  Forall (λ x, f x = true) l → List.filter f l = l.
Proof. induction 1 as [|x l Hx _ IH]; [done|]. cbn. by rewrite Hx, IH. Qed.

(** C4, as amended: the scan starts one goroutine for each URL of the
    list and each goroutine has at most one request in flight, so the
    requests in flight are never more than the URLs of the list; nothing
    bounds them further: with at least one plugin, all the goroutines
    can be inside [pkg.HTTPGet] at once. *)
Theorem Scan_in_flight :
  (∀ st, reachable y flags urlList st →
         length (gs st) ≤ length urlList ∧ inFlight st ≤ length (gs st))
  ∧ (data.Plugins y ≠ [] →
     ∃ st, reachable y flags urlList st ∧ inFlight st = length urlList).
Proof.
  split.
  - intros st Hr. destruct (launched_reachable y flags urlList st Hr).
    split; [lia | apply inFlight_le_launched].
  - intros Hne. destruct (data.Plugins y) as [|plugin plugins] eqn:Hy; [done|].
    destruct (request_all plugin plugins (length urlList) Hy) as (st & Hr & _ & Hgs); [lia|].
    exists st. split; [done|]. unfold inFlight.
    rewrite Hgs, drop_ge, take_ge, fmap_nil, app_nil_r by lia.
    rewrite filter_all_true, length_fmap; [done|].
    apply Forall_fmap, Forall_true. done.
Qed.

End InFlight.

Lemma Scan_in_flight_witness :
  ∃ st, app.reachable (H := Spec.yesPkg) Spec.adminConfig (Spec.flagsBlocking "")
          ["a.example"; "b.example"; "c.example"] st
        ∧ app.inFlight st = 3.
Proof.
  apply (Scan_in_flight (H := Spec.yesPkg)). done.
Defined.

(** C4, as stated, fails: with the limit 1 and two URLs, both requests
    are in flight at once. *)
Lemma Scan_in_flight_counterexample :
  ¬ Spec.boundedInFlight (H := Spec.yesPkg) 1 Spec.adminConfig (Spec.flagsBlocking "")
      ["a.example"; "b.example"].
Proof.
  intros Hb.
  destruct (request_all (H := Spec.yesPkg) Spec.adminConfig (Spec.flagsBlocking "")
              ["a.example"; "b.example"] _ _ 2 eq_refl) as (st & Hr & _ & Hgs);
    [cbn; lia|].
  specialize (Hb st Hr). unfold app.inFlight in Hb. rewrite Hgs in Hb.
  cbn in Hb. lia.
Qed.

(** A complete scan of one domain whose single check matches. *)
Lemma one_hit_run :
  app.reachable (H := Spec.yesPkg) Spec.adminConfig (Spec.flagsBlocking "High")
    ["a.example"] Spec.oneHitState.
Proof.
  assert (∃ st, app.reachable (H := Spec.yesPkg) Spec.adminConfig
                  (Spec.flagsBlocking "High") ["a.example"] st
                ∧ st = Spec.oneHitState) as (st & Hr & <-); [|exact Hr].
  eexists. split; [eapply app.reach_step|].
  - eapply app.reach_step.
    { eapply app.reach_step.
      { eapply app.reach_step.
        { eapply app.reach_step; [apply app.reach_init|].
          by eapply (app.step_go _ _ _ app.init "a.example"). }
        by eapply (app.step_assign _ _ _ _ 0). }
      by eapply (app.step_call _ _ _ _ 0). }
    by eapply (app.step_response (H := Spec.yesPkg) _ _ _ _ 0 _ _ _ _
                 (tt : @Response Spec.yesPkg)).
  - by eapply (app.step_done _ _ _ _ 0).
  - reflexivity.
Qed.

Lemma Scan_exit_status_witness :
  app.exitStatus (app.finish (Spec.flagsBlocking "High") (app.shared Spec.oneHitState))
  = 0%Z.
Proof.
  apply (Scan_exit_status (H := Spec.yesPkg) Spec.adminConfig (Spec.flagsBlocking "High")
           ["a.example"] Spec.oneHitState one_hit_run eq_refl).
  right. split; [done|].
  intros o Ho%list_elem_of_singleton (t & s & Ht & Hs & Hle). subst o.
  vm_compute in Ht, Hs. injection Ht as <-. injection Hs as <-. lia.
Defined.

(** ** The filters: in-place filtering of a backing array *)

Section Compacted.

Import core Spec.

Lemma lookup_compacted kept off arr j :
  off + length kept ≤ length arr →
  compacted kept off arr !! j =
    if decide (j < off) then arr !! j
    else if decide (j < off + length kept) then kept !! (j - off)
    else arr !! j.
Proof.
  intros Hb. unfold compacted.
  assert (length (take off arr) = off) as Hl by (rewrite length_take; lia).
  repeat case_decide.
  - rewrite lookup_app_l, lookup_take_lt by lia. done.
  - rewrite lookup_app_r, Hl, lookup_app_l by lia. done.
  - rewrite lookup_app_r, Hl by lia. rewrite lookup_app_r by lia.
    rewrite lookup_drop. f_equal. lia.
Qed.

Lemma length_compacted kept off arr :
  off + length kept ≤ length arr → length (compacted kept off arr) = length arr.
Proof.
  intros Hb. unfold compacted. rewrite !length_app, length_take, length_drop. lia.
Qed.

Lemma compacted_nil off arr : compacted [] off arr = arr.
Proof. unfold compacted. cbn. rewrite Nat.add_0_r. apply take_drop. Qed.

(** Writing one more element just after [kept]. *)
Lemma insert_compacted kept off arr x :
  off + length kept < length arr →
  <[off + length kept := x]> (compacted kept off arr) = compacted (kept ++ [x]) off arr.
Proof.
  intros Hb. apply list_eq. intros j.
  rewrite list_lookup_insert by (rewrite length_compacted; lia).
  rewrite !lookup_compacted by (rewrite ?length_app; cbn; lia).
  rewrite length_app. cbn.
  destruct (decide (off + length kept = j)) as [<-|Hne].
  - rewrite decide_True by (rewrite length_compacted; lia).
    rewrite decide_False, decide_True by lia.
    rewrite lookup_app_r by lia.
    replace (off + length kept - off - length kept) with 0 by lia. done.
  - repeat case_decide; try lia; try done.
    rewrite lookup_app_l by lia. done.
Qed.

(** What a slice of length [n] at [off] shows of the array afterwards:
    the kept elements, then its own old elements from there on. *)
Lemma segment_compacted kept off arr n :
  off + n ≤ length arr → length kept ≤ n →
  take n (drop off (compacted kept off arr))
  = kept ++ drop (length kept) (take n (drop off arr)).
Proof.
  intros Hb Hk. apply list_eq. intros j.
  destruct (decide (j < n)) as [Hj|Hj].
  - rewrite lookup_take_lt, lookup_drop, lookup_compacted by lia.
    rewrite decide_False by lia.
    case_decide.
    + rewrite lookup_app_l by lia. f_equal. lia.
    + rewrite lookup_app_r by lia. rewrite lookup_drop, lookup_take_lt, lookup_drop by lia.
      f_equal. lia.
  - rewrite lookup_take_ge by lia. symmetry. apply lookup_ge_None.
    rewrite length_app, length_drop, length_take, length_drop. lia.
Qed.

End Compacted.

Section Store.

Import core Spec.

Lemma arrays_setArrays k m h : arrays k (setArrays k m h) = m.
Proof. by destruct k. Qed.

Lemma setArrays_arrays k h : setArrays k (arrays k h) h = h.
Proof. by destruct k, h. Qed.

Lemma setArrays_setArrays k m m' h : setArrays k m (setArrays k m' h) = setArrays k m h.
Proof. by destruct k. Qed.

Lemma bind_Some {A B} (m : M A) (f : A → M B) h a h' :
  m h = Some (a, h') → bind m f h = f a h'.
Proof. unfold bind. by intros ->. Qed.

Lemma bind_bind_Some {A B C} (m : M A) (f : A → M B) (g : B → M C) h a h' :
  m h = Some (a, h') → bind (bind m f) g h = bind (f a) g h'.
Proof. unfold bind. by intros ->. Qed.

Lemma bind_ret {A B} (a : A) (f : A → M B) h : bind (ret a) f h = f a h.
Proof. done. Qed.

Lemma readSlice_Some arrs sl xs :
  readSlice arrs sl = Some xs →
  length xs = s_len sl
  ∧ (0 < s_len sl →
     ∃ arr, arrs !! s_arr sl = Some arr ∧ s_off sl + s_len sl ≤ length arr
            ∧ xs = take (s_len sl) (drop (s_off sl) arr)).
Proof.
  unfold readSlice. destruct (Nat.eqb_spec (s_len sl) 0) as [E|E].
  - intros [= <-]. split; [done | lia].
  - destruct (arrs !! s_arr sl) as [arr|]; [|done].
    destruct (Nat.leb_spec (s_off sl + s_len sl) (length arr)); [|done].
    intros [= <-]. split; [rewrite length_take, length_drop; lia | eauto].
Qed.

Lemma readSlice_segment arrs sl arr :
  arrs !! s_arr sl = Some arr → s_off sl + s_len sl ≤ length arr →
  readSlice arrs sl = Some (take (s_len sl) (drop (s_off sl) arr)).
Proof.
  intros Ha Hb. unfold readSlice. rewrite Ha.
  destruct (Nat.eqb_spec (s_len sl) 0) as [E|E]; [by rewrite E|].
  by destruct (Nat.leb_spec (s_off sl + s_len sl) (length arr)); [|lia].
Qed.

End Store.

Section InPlace.

Import core Spec.
Context `{GoRuntime}.

Variable k : kind.
Variable sl : slice.
Variable decide_keep : loc → M bool.
Variable keepb : loc → bool.
Variable Inv : list loc → Heap → Prop.
Variable xs arr0 : list loc.
Variable A0 : gmap loc (list loc).

Hypothesis Hcap : s_len sl ≤ s_cap sl.
Hypothesis Hbound : s_off sl + s_len sl ≤ length arr0.
Hypothesis Hxs : xs = take (s_len sl) (drop (s_off sl) arr0).
Hypothesis HA0 : A0 !! s_arr sl = Some arr0.
Hypothesis Hstep :
  ∀ done x h, (∃ rest, xs = done ++ x :: rest) → Inv done h →
    ∃ h', decide_keep x h = Some (keepb x, h')
          ∧ Inv (done ++ [x]) h' ∧ arrays k h' = arrays k h.
Hypothesis Hframe : ∀ done h m, Inv done h → Inv done (setArrays k m h).

Lemma length_xs : length xs = s_len sl.
Proof. rewrite Hxs, length_take, length_drop. lia. Qed.

Lemma length_filter_le (l : list loc) : length (List.filter keepb l) ≤ length l.
Proof. apply List.filter_length_le. Qed.

(** The loop that keeps the elements [decide_keep] accepts, appending
    them to the slice emptied with [[:0]]: [i] iterations in, the
    backing array holds the elements kept so far at its start and is
    otherwise as it was. *)
Lemma rangeFrom_inplace m i h :
  i + m = s_len sl →
  Inv (take i xs) h →
  arrays k h = <[s_arr sl := compacted (List.filter keepb (take i xs)) (s_off sl) arr0]> A0 →
  ∃ h',
    rangeFrom k sl
      (λ x acc, let* b := decide_keep x in if b then append k acc x else ret acc)
      m i (withLen sl (length (List.filter keepb (take i xs)))) h
    = Some (withLen sl (length (List.filter keepb xs)), h')
    ∧ Inv xs h'
    ∧ arrays k h' = <[s_arr sl := compacted (List.filter keepb xs) (s_off sl) arr0]> A0.
Proof.
  pose proof length_xs as Hlen.
  revert i h. induction m as [|m IH]; intros i h Him HI HA.
  - rewrite take_ge in * by lia. exists h. by cbn.
  - destruct (lookup_lt_is_Some_2 xs i) as [x Hx]; [lia|].
    pose proof (length_filter_le (take i xs)) as Hk.
    rewrite length_take in Hk.
    assert (take (S i) xs = take i xs ++ [x]) as Htake by by apply take_S_r.
    cbn [rangeFrom].
    assert (index k sl i h = Some (x, h)) as Hidx.
    { unfold index. destruct (Nat.ltb_spec i (s_len sl)); [|lia].
      rewrite HA, lookup_insert_eq, lookup_compacted by lia.
      rewrite decide_False, decide_False by lia.
      rewrite Hxs, lookup_take_lt, lookup_drop in Hx by lia. by rewrite Hx. }
    rewrite (bind_Some _ _ _ _ _ Hidx).
    destruct (Hstep (take i xs) x h) as (h1 & Hd & HI1 & HA1).
    { exists (drop (S i) xs). rewrite <- (drop_S _ _ _ Hx). by rewrite take_drop. }
    { done. }
    rewrite <- Htake in HI1.
    rewrite (bind_bind_Some _ _ _ _ _ _ Hd).
    destruct (keepb x) eqn:Ekeep.
    + assert (List.filter keepb (take (S i) xs) = List.filter keepb (take i xs) ++ [x]) as Hf.
      { rewrite Htake, List.filter_app. cbn. by rewrite Ekeep. }
      set (kept := List.filter keepb (take i xs)) in *.
      assert (append k (withLen sl (length kept)) x h1
              = Some (withLen sl (length (List.filter keepb (take (S i) xs))),
                      setArrays k (<[s_arr sl := compacted (kept ++ [x]) (s_off sl) arr0]> A0) h1))
        as Happ.
      { unfold append. cbn [withLen s_len s_cap s_arr s_off].
        destruct (Nat.ltb_spec (length kept) (s_cap sl)); [|lia].
        rewrite HA1, HA, lookup_insert_eq, insert_insert_eq.
        rewrite insert_compacted by lia.
        rewrite Hf, length_app. cbn. unfold withLen. do 4 f_equal. lia. }
      rewrite (bind_Some _ _ _ _ _ Happ). apply IH; [lia | by apply Hframe |].
      by rewrite arrays_setArrays, Hf.
    + assert (List.filter keepb (take (S i) xs) = List.filter keepb (take i xs)) as Hf.
      { rewrite Htake, List.filter_app. cbn. by rewrite Ekeep, app_nil_r. }
      rewrite bind_ret, <- Hf. apply IH; [lia | done |].
      by rewrite Hf, HA1.
Qed.

Lemma range_inplace h :
  Inv [] h →
  arrays k h = A0 →
  ∃ h',
    range k sl
      (λ x acc, let* b := decide_keep x in if b then append k acc x else ret acc)
      (resliceEmpty sl) h
    = Some (withLen sl (length (List.filter keepb xs)), h')
    ∧ Inv xs h'
    ∧ arrays k h' = <[s_arr sl := compacted (List.filter keepb xs) (s_off sl) arr0]> A0.
Proof.
  intros HI HA. apply (rangeFrom_inplace (s_len sl) 0 h); [done | done |].
  cbn. by rewrite compacted_nil, insert_id.
Qed.

End InPlace.

Section FilterShape.

Import core Spec.
Context `{GoRuntime}.

Lemma rangeFrom_ext {A} k sl (body1 body2 : loc → A → M A) n i acc h :
  (∀ x a h', body1 x a h' = body2 x a h') →
  rangeFrom k sl body1 n i acc h = rangeFrom k sl body2 n i acc h.
Proof.
  intros Hext. revert i acc h. induction n as [|n IH]; intros i acc h; [done|].
  cbn [rangeFrom]. unfold bind at 1 3.
  destruct (index k sl i h) as [[x h1]|]; [|done].
  unfold bind at 1 2. rewrite Hext.
  destruct (body2 x acc h1) as [[a h2]|]; [|done]. apply IH.
Qed.

Lemma bind_ext {A B} (m : M A) (f g : A → M B) h :
  (∀ a h', f a h' = g a h') → bind m f h = bind m g h.
Proof. intros Hext. unfold bind. destruct (m h) as [[a h']|]; [apply Hext | done]. Qed.

Lemma bind_cong_l {A B} (m1 m2 : M A) (f : A → M B) h :
  m1 h = m2 h → bind m1 f h = bind m2 f h.
Proof. unfold bind. by intros ->. Qed.

Lemma decideCheck_valid call c ck h :
  checkObjs h !! c = Some ck → decideCheck call c h = Some (keeps call ck, h).
Proof.
  intros Hc. destruct call as [sev|names]; cbn [decideCheck keeps].
  - unfold bind, loadCheck. by rewrite Hc.
  - induction names as [|name names IH]; [done|].
    unfold bind, loadCheck. rewrite Hc. cbn [existsb].
    destruct (GoStrings.Contains _ _); [done | exact IH].
Qed.

(** The loop over the names, with its [break], is the decision followed
    by the [append]. *)
Lemma namesLoop_decide check names acc h :
  namesLoop check names acc h
  = bind (decideCheck (ByNames names) check)
      (λ b, if b then append OfChecks acc check else ret acc) h.
Proof.
  induction names as [|name names IH]; [done|].
  cbn [namesLoop decideCheck]. unfold bind at 1 2 3. unfold loadCheck.
  destruct (checkObjs h !! check) as [ck|]; [|done].
  destruct (GoStrings.Contains _ _); [done|]. exact IH.
Qed.

Lemma runFilter_shape call s h : runFilter call s h = filterShape call s h.
Proof.
  unfold filterShape.
  assert (∀ body1 body2 : loc → slice → M slice,
            (∀ c a h', body1 c a h' = body2 c a h') →
            ∀ plugin acc h1,
              bind (loadPlugin plugin) (λ pl,
                bind (range OfChecks (Checks pl) body1 (resliceEmpty (Checks pl)))
                  (λ filteredChecks,
                     if (0 <? s_len filteredChecks)
                     then bind (storeChecks plugin filteredChecks)
                            (λ _, append OfPlugins acc plugin)
                     else ret acc)) h1
              = bind (bind (loadPlugin plugin) (λ pl,
                   bind (range OfChecks (Checks pl) body2 (resliceEmpty (Checks pl)))
                     (λ filteredChecks,
                        if (0 <? s_len filteredChecks)
                        then bind (storeChecks plugin filteredChecks) (λ _, ret true)
                        else ret false)))
                  (λ b, if b then append OfPlugins acc plugin else ret acc) h1) as Hbody.
  { intros body1 body2 Hext plugin acc h1. unfold bind, range.
    destruct (loadPlugin plugin h1) as [[pl h2]|]; [|done].
    rewrite (rangeFrom_ext _ _ body1 body2) by done.
    destruct (rangeFrom _ _ _ _ _ _ _) as [[fc h3]|]; [|done].
    destruct (0 <? s_len fc); [|done].
    by destruct (storeChecks plugin fc h3) as [[[] h4]|]. }
  destruct call as [sev|names]; cbn [runFilter];
    [unfold FilterBySeverity | unfold FilterByNames];
    apply bind_ext; intros sg h1; apply bind_cong_l; unfold range;
    apply rangeFrom_ext; intros plugin acc h'; unfold decidePlugin; apply Hbody.
  - intros c a h2. unfold decideCheck, bind, loadCheck, ret.
    destruct (checkObjs h2 !! c); [|done]. by destruct (String.eqb _ _).
  - intros c a h2. apply namesLoop_decide.
Qed.

End FilterShape.

Section OnePlugin.

Import core Spec.
Context `{GoRuntime}.

Lemma readSlice_empty arrs sl : s_len sl = 0 → readSlice arrs sl = Some [].
Proof. intros E. unfold readSlice. by rewrite E. Qed.

Lemma readSlice_frame (arrs arrs' : gmap loc (list loc)) sl :
  (0 < s_len sl → arrs' !! s_arr sl = arrs !! s_arr sl) →
  readSlice arrs' sl = readSlice arrs sl.
Proof.
  intros Hf. unfold readSlice. destruct (Nat.eqb_spec (s_len sl) 0); [done|].
  rewrite Hf by lia. done.
Qed.

Lemma readSlice_withLen arrs sl xs n :
  readSlice arrs sl = Some xs → n ≤ s_len sl →
  readSlice arrs (withLen sl n) = Some (take n xs).
Proof.
  intros Hr Hn. destruct (decide (n = 0)) as [->|Hn0].
  { by rewrite readSlice_empty. }
  apply readSlice_Some in Hr as [_ Hr].
  destruct Hr as (arr & Ha & Hb & ->); [lia|].
  rewrite (readSlice_segment _ _ arr) by (cbn; (done || lia)).
  cbn. by rewrite take_take, Nat.min_l by lia.
Qed.

Lemma same_but_checkArrs h h1 :
  setArrays OfChecks (checkArrs h) h1 = h →
  checkObjs h1 = checkObjs h ∧ sigObjs h1 = sigObjs h
  ∧ pluginArrs h1 = pluginArrs h ∧ next h1 = next h
  ∧ pluginObjs h1 = pluginObjs h.
Proof.
  intros E. split_and!;
    [exact (f_equal checkObjs E) | exact (f_equal sigObjs E)
    | exact (f_equal pluginArrs E) | exact (f_equal next E)
    | exact (f_equal pluginObjs E)].
Qed.

(** What the body of the outer loop does with one plugin: it compacts
    the backing array of the plugin's checks, stores the shortened slice
    in the plugin when a check is left, and changes nothing else. *)
Lemma decidePlugin_spec call h p pl cs :
  pluginObjs h !! p = Some pl →
  s_len (Checks pl) ≤ s_cap (Checks pl) →
  readSlice (checkArrs h) (Checks pl) = Some cs →
  (∀ c, c ∈ cs → is_Some (checkObjs h !! c)) →
  let kept := List.filter (keepsPtr call h) cs in
  ∃ h',
    decidePlugin call p h = Some ((0 <? length kept), h')
    ∧ checkObjs h' = checkObjs h ∧ sigObjs h' = sigObjs h
    ∧ pluginArrs h' = pluginArrs h ∧ next h' = next h
    ∧ pluginObjs h' =
        (if (0 <? length kept)
         then <[p := setChecks pl (withLen (Checks pl) (length kept))]> (pluginObjs h)
         else pluginObjs h)
    ∧ (∀ a, a ≠ s_arr (Checks pl) ∨ s_len (Checks pl) = 0 →
            checkArrs h' !! a = checkArrs h !! a)
    ∧ readSlice (checkArrs h') (Checks pl) = Some (kept ++ drop (length kept) cs).
Proof.
  intros Hp Hcap Hr Hvalid kept.
  assert (∃ h1,
    range OfChecks (Checks pl)
      (λ check acc, bind (decideCheck call check)
                      (λ b, if b then append OfChecks acc check else ret acc))
      (resliceEmpty (Checks pl)) h
    = Some (withLen (Checks pl) (length kept), h1)
    ∧ setArrays OfChecks (checkArrs h) h1 = h
    ∧ (∀ a, a ≠ s_arr (Checks pl) ∨ s_len (Checks pl) = 0 →
            checkArrs h1 !! a = checkArrs h !! a)
    ∧ readSlice (checkArrs h1) (Checks pl) = Some (kept ++ drop (length kept) cs))
    as (h1 & Hrange & Hsame & Hframe & Hseg).
  { destruct (decide (s_len (Checks pl) = 0)) as [E|E].
    - exists h. pose proof Hr as Hr'. rewrite readSlice_empty in Hr' by done.
      injection Hr' as <-. unfold range. rewrite E. cbn.
      split; [done|]. split; [apply (setArrays_arrays OfChecks)|]. done.
    - destruct (readSlice_Some _ _ _ Hr) as [Hlen (arr & Ha & Hb & Hcs)]; [lia|].
      destruct (range_inplace OfChecks (Checks pl) (decideCheck call) (keepsPtr call h)
                  (λ _ h1, setArrays OfChecks (checkArrs h) h1 = h)
                  cs arr (checkArrs h) Hcap Hb Hcs Ha) with (h := h)
        as (h1 & Hrange & Hsame & HA).
      + intros done x h1 [rest Hx] Hsame.
        assert (x ∈ cs) as Hin
          by (rewrite Hx; apply elem_of_app; right; apply list_elem_of_here).
        destruct (Hvalid x Hin) as [ck Hck].
        exists h1. rewrite (decideCheck_valid call x ck).
        * unfold keepsPtr. by rewrite Hck.
        * rewrite <- Hck. by destruct (same_but_checkArrs _ _ Hsame) as [-> _].
      + intros _ h1 m Hsame. by rewrite setArrays_setArrays.
      + apply (setArrays_arrays OfChecks).
      + done.
      + exists h1. split; [exact Hrange|]. split; [exact Hsame|].
        cbn [arrays] in HA. split.
        * intros a [Hne | ?]; [|lia]. by rewrite HA, lookup_insert_ne.
        * rewrite (readSlice_segment _ _ (compacted kept (s_off (Checks pl)) arr)).
          -- rewrite segment_compacted, <- Hcs; [done | lia |].
             subst kept. rewrite <- Hlen. apply List.filter_length_le.
          -- by rewrite HA, lookup_insert_eq.
          -- rewrite length_compacted; [lia|].
             pose proof (List.filter_length_le (keepsPtr call h) cs). subst kept. lia. }
  assert (checkObjs h1 = checkObjs h ∧ sigObjs h1 = sigObjs h
          ∧ pluginArrs h1 = pluginArrs h ∧ next h1 = next h
          ∧ pluginObjs h1 = pluginObjs h) as (Eco & Eso & Epa & En & Epo).
  { by apply same_but_checkArrs. }
  unfold decidePlugin.
  erewrite bind_Some; [|unfold loadPlugin; by rewrite Hp].
  rewrite (bind_Some _ _ _ _ _ Hrange). cbn [withLen s_len].
  destruct (0 <? length kept) eqn:Ek.
  - eexists. split.
    + unfold bind, storeChecks. rewrite Epo, Hp. reflexivity.
    + cbn. done.
  - exists h1. done.
Qed.

End OnePlugin.

Section WholeFilter.

Import core Spec.
Context `{GoRuntime}.

Lemma keepsPtr_same call h h' c :
  checkObjs h' = checkObjs h → keepsPtr call h' c = keepsPtr call h c.
Proof. unfold keepsPtr. by intros ->. Qed.

Lemma filter_keepsPtr_same call h h' cs :
  checkObjs h' = checkObjs h →
  List.filter (keepsPtr call h') cs = List.filter (keepsPtr call h) cs.
Proof.
  intros E. apply List.filter_ext. intros c. by apply keepsPtr_same.
Qed.

(** The filter on a well-formed signature set: it ends without a panic;
    it touches no check; the backing array of the plugin list holds the
    kept plugins and then its old elements; [s.Plugins] is the slice
    shortened to the kept plugins; every plugin is as [pluginAfter] says;
    nothing is allocated, and what lies outside the set is as it was. *)
Lemma runFilter_spec_frame call h0 s sg ps :
  wf h0 s →
  sigObjs h0 !! s = Some sg →
  readSlice (pluginArrs h0) (Plugins sg) = Some ps →
  let keptP := List.filter (keepsPlugin call h0) ps in
  ∃ hF,
    runFilter call s h0 = Some (tt, hF)
    ∧ checkObjs hF = checkObjs h0
    ∧ sigObjs hF = <[s := {| Plugins := withLen (Plugins sg) (length keptP) |}]> (sigObjs h0)
    ∧ readSlice (pluginArrs hF) (Plugins sg) = Some (keptP ++ drop (length keptP) ps)
    ∧ (∀ q, q ∈ ps → pluginAfter call h0 hF true q)
    ∧ outside h0 hF ps
    ∧ (∀ a, a ≠ s_arr (Plugins sg) → pluginArrs hF !! a = pluginArrs h0 !! a).
Proof.
  intros (sg' & ps' & Hs' & Hcap & Hps' & Hnd & Hpl & Hsep) Hs Hps keptP.
  assert (sg' = sg) as -> by congruence. assert (ps' = ps) as -> by congruence.
  clear Hs' Hps'.
  assert (∃ h1,
    range OfPlugins (Plugins sg)
      (λ plugin acc, bind (decidePlugin call plugin)
                       (λ b, if b then append OfPlugins acc plugin else ret acc))
      (resliceEmpty (Plugins sg)) h0
    = Some (withLen (Plugins sg) (length keptP), h1)
    ∧ (checkObjs h1 = checkObjs h0 ∧ sigObjs h1 = sigObjs h0
       ∧ (∀ q, q ∈ ps → pluginAfter call h0 h1 true q)
       ∧ outside h0 h1 ps)
    ∧ readSlice (pluginArrs h1) (Plugins sg) = Some (keptP ++ drop (length keptP) ps)
    ∧ (∀ a, a ≠ s_arr (Plugins sg) → pluginArrs h1 !! a = pluginArrs h0 !! a))
    as (h1 & Hrange & (Eco & Eso & Hafter & Hout) & Hseg & Hparr).
  { destruct (decide (s_len (Plugins sg) = 0)) as [E|E].
    - exists h0. pose proof Hps as Hps'. rewrite readSlice_empty in Hps' by done.
      injection Hps' as <-. unfold range. rewrite E. cbn.
      split; [done|]. split; [|split; [by rewrite readSlice_empty | done]].
      split; [done|]. split; [done|]. split; [by intros q ?%elem_of_nil|].
      by repeat split.
    - destruct (readSlice_Some _ _ _ Hps) as [Hlen (arr & Ha & Hb & Hxs)]; [lia|].
      destruct (range_inplace OfPlugins (Plugins sg) (decidePlugin call)
                  (keepsPlugin call h0)
                  (λ done h, checkObjs h = checkObjs h0 ∧ sigObjs h = sigObjs h0
                             ∧ (∀ q, q ∈ ps →
                                  pluginAfter call h0 h (bool_decide (q ∈ done)) q)
                             ∧ outside h0 h ps)
                  ps arr (pluginArrs h0) Hcap Hb Hxs Ha) with (h := h0)
        as (h1 & Hrange & HI & HA).
      + (* one iteration *)
        intros done x h [rest Hx] (Eco & Eso & Hstate & (En & Hop & Hoa)).
        assert (x ∈ ps) as Hin
          by (rewrite Hx; apply elem_of_app; right; apply list_elem_of_here).
        assert (x ∉ done) as Hnotin.
        { rewrite Hx in Hnd. apply NoDup_app in Hnd as (_ & Hd & _).
          intros Hd'. apply (Hd x Hd'). apply list_elem_of_here. }
        destruct (Hstate x Hin) as (xl & cs & Hxl & Hcs & Hst).
        rewrite bool_decide_eq_false_2 in Hst by done. destruct Hst as [Hxl' Hcs'].
        destruct (Hpl x Hin) as (xl0 & cs0 & Hxl0 & Hxcap & Hcs0 & Hvalid).
        assert (xl0 = xl) as -> by congruence. assert (cs0 = cs) as -> by congruence.
        destruct (decidePlugin_spec call h x xl cs Hxl' Hxcap Hcs')
          as (h' & Hrun & Eco' & Eso' & Epa' & En' & Epo' & Hframe & Hseg').
        { intros c Hc. rewrite Eco. by apply Hvalid. }
        rewrite (filter_keepsPtr_same call h0 h) in * by done.
        set (kept := List.filter (keepsPtr call h0) cs) in *.
        assert (keepsPlugin call h0 x = (0 <? length kept)) as Hkeep.
        { unfold keepsPlugin, keptChecks, pluginChecks. by rewrite Hxl, Hcs. }
        exists h'. rewrite Hkeep. split; [exact Hrun|]. split; [|exact Epa'].
        split; [congruence|]. split; [congruence|].
        split; [|split; [congruence|split]].
        2: { intros q Hq. rewrite <- (Hop q Hq), Epo'.
             destruct (0 <? length kept); [|done].
             apply lookup_insert_ne. by intros ->. }
        2: { intros a Ha'. rewrite <- (Hoa a Ha'). apply Hframe.
             destruct (decide (s_len (Checks xl) = 0)) as [?|Hpos]; [by right|].
             left. apply (Ha' x xl Hin Hxl). lia. }
        intros q Hq. destruct (decide (q = x)) as [->|Hne].
        * exists xl, cs. split; [done|]. split; [done|].
          rewrite bool_decide_eq_true_2
            by (apply elem_of_app; right; apply list_elem_of_here).
          cbv zeta. fold kept.
          split; [|exact Hseg']. rewrite Epo'.
          destruct (0 <? length kept); [by rewrite lookup_insert_eq | done].
        * destruct (Hstate q Hq) as (ql & qcs & Hql & Hqcs & Hqst).
          exists ql, qcs. split; [done|]. split; [done|]. cbv zeta in *.
          assert (bool_decide (q ∈ done ++ [x]) = bool_decide (q ∈ done)) as ->.
          { apply bool_decide_ext. rewrite elem_of_app, list_elem_of_singleton. tauto. }
          assert (pluginObjs h' !! q = pluginObjs h !! q) as Eq.
          { rewrite Epo'. destruct (0 <? length kept); [by rewrite lookup_insert_ne | done]. }
          assert (readSlice (checkArrs h') (Checks ql) = readSlice (checkArrs h) (Checks ql))
            as Er.
          { apply readSlice_frame. intros Hpos. apply Hframe.
            destruct (Hsep q x ql xl Hq Hin Hne Hql Hxl) as [? | [? | ?]]; [lia | by right | by left]. }
          rewrite Eq, Er. exact Hqst.
      + intros done h m HI. exact HI.
      + split; [done|]. split; [done|]. split; [|by repeat split]. intros q Hq.
        destruct (Hpl q Hq) as (ql & cs & Hql & _ & Hcs & _).
        exists ql, cs. rewrite bool_decide_eq_false_2 by apply not_elem_of_nil. done.
      + done.
      + exists h1. split; [exact Hrange|]. split.
        * destruct HI as (? & ? & Hst & ?). split; [done|]. split; [done|].
          split; [|done].
          intros q Hq. specialize (Hst q Hq).
          by rewrite bool_decide_eq_true_2 in Hst.
        * cbn [arrays] in HA. split;
            [|by intros a Hne; rewrite HA, lookup_insert_ne].
          pose proof (List.filter_length_le (keepsPlugin call h0) ps) as Hle.
          rewrite (readSlice_segment _ _ (compacted keptP (s_off (Plugins sg)) arr)).
          -- rewrite segment_compacted, <- Hxs; [done | lia | subst keptP; lia].
          -- by rewrite HA, lookup_insert_eq.
          -- rewrite length_compacted; [lia | subst keptP; lia]. }
  rewrite runFilter_shape. unfold filterShape.
  erewrite bind_Some; [|unfold loadSignatures; by rewrite Hs].
  rewrite (bind_Some _ _ _ _ _ Hrange). cbv beta.
  unfold storePlugins. eexists. rewrite Eso, Hs.
  split; [reflexivity|]. done.
Qed.

(** The filter on a well-formed signature set: it ends without a panic;
    it touches no check; the backing array of the plugin list holds the
    kept plugins and then its old elements; [s.Plugins] is the slice
    shortened to the kept plugins; every plugin is as [pluginAfter] says. *)
Lemma runFilter_spec call h0 s sg ps :
  wf h0 s →
  sigObjs h0 !! s = Some sg →
  readSlice (pluginArrs h0) (Plugins sg) = Some ps →
  let keptP := List.filter (keepsPlugin call h0) ps in
  ∃ hF,
    runFilter call s h0 = Some (tt, hF)
    ∧ checkObjs hF = checkObjs h0
    ∧ sigObjs hF = <[s := {| Plugins := withLen (Plugins sg) (length keptP) |}]> (sigObjs h0)
    ∧ readSlice (pluginArrs hF) (Plugins sg) = Some (keptP ++ drop (length keptP) ps)
    ∧ (∀ q, q ∈ ps → pluginAfter call h0 hF true q).
Proof.
  intros Hwf Hs Hps keptP.
  destruct (runFilter_spec_frame call h0 s sg ps Hwf Hs Hps)
    as (hF & Hrun & Eco & Eso & Hseg & Hafter & _).
  exists hF. done.
Qed.

End WholeFilter.

Section Views.

Import core Spec.
Context `{GoRuntime}.

Lemma filter_elem_of {A} (f : A → bool) l x :
  x ∈ List.filter f l ↔ x ∈ l ∧ f x = true.
Proof. rewrite !list_elem_of_In. apply List.filter_In. Qed.

Lemma filter_NoDup {A} (f : A → bool) l : NoDup l → NoDup (List.filter f l).
Proof. rewrite !NoDup_ListNoDup. apply List.NoDup_filter. Qed.

(** The view is the list of the plugins, each with the checks it shows. *)
Lemma view_Some h s ps :
  pluginList h s = Some ps →
  (∀ p, p ∈ ps → is_Some (pluginChecks h p)) →
  view h s = Some ((λ p, (p, default [] (pluginChecks h p))) <$> ps).
Proof.
  intros Hps Hall. unfold view. rewrite Hps. apply mapM_Some.
  apply Forall2_fmap_r, Forall_Forall2_diag, Forall_forall.
  intros p Hp. cbn. by destruct (Hall p Hp) as [cs ->].
Qed.

Lemma view_inv h s v :
  view h s = Some v →
  ∃ ps, pluginList h s = Some ps
        ∧ (∀ p, p ∈ ps → is_Some (pluginChecks h p))
        ∧ v = (λ p, (p, default [] (pluginChecks h p))) <$> ps.
Proof.
  unfold view. destruct (pluginList h s) as [ps|]; [|done].
  intros Hm. exists ps. split; [done|].
  assert (∀ p, p ∈ ps → is_Some (pluginChecks h p)) as Hall.
  { intros p Hp. apply list_elem_of_lookup in Hp as [i Hi].
    pose proof Hm as Hm2. apply mapM_Some in Hm2.
    destruct (Forall2_lookup_l _ _ _ _ _ Hm2 Hi) as (pc & _ & Hpc). cbn in Hpc.
    destruct (pluginChecks h p); [eauto | done]. }
  split; [done|].
  assert (mapM (λ p, match pluginChecks h p with
                     | Some cs => Some (p, cs) | None => None end) ps
          = Some ((λ p, (p, default [] (pluginChecks h p))) <$> ps)) as Hm'.
  { apply mapM_Some, Forall2_fmap_r, Forall_Forall2_diag, Forall_forall.
    intros p Hp. cbn. by destruct (Hall p Hp) as [cs ->]. }
  congruence.
Qed.

Lemma wf_view h s :
  wf h s → ∃ v, view h s = Some v.
Proof.
  intros (sg & ps & Hs & _ & Hps & _ & Hpl & _).
  eexists. apply (view_Some h s ps).
  - unfold pluginList. by rewrite Hs.
  - intros p Hp. destruct (Hpl p Hp) as (pl & cs & Hp' & _ & Hcs & _).
    unfold pluginChecks. rewrite Hp'. eauto.
Qed.

(** Filtering the view of a list of plugins. *)
Lemma filterSet_fmap keep (chk : loc → list loc) ps :
  filterSet keep ((λ p, (p, chk p)) <$> ps)
  = (λ p, (p, List.filter keep (chk p)))
      <$> List.filter (λ p, (0 <? length (List.filter keep (chk p)))) ps.
Proof.
  unfold filterSet. induction ps as [|p ps IH]; [done|].
  rewrite fmap_cons. cbn [List.map List.filter fst snd].
  destruct (0 <? length (List.filter keep (chk p)));
    [rewrite fmap_cons|]; by rewrite <- IH.
Qed.

Lemma filterSet_ext keep1 keep2 v :
  (∀ c, keep1 c = keep2 c) → filterSet keep1 v = filterSet keep2 v.
Proof.
  intros Hext. unfold filterSet. f_equal. apply List.map_ext.
  intros [p cs]. cbn [fst snd]. f_equal. by apply List.filter_ext.
Qed.

(** Filtering twice is filtering once. *)
Lemma filterSet_idem keep v : filterSet keep (filterSet keep v) = filterSet keep v.
Proof.
  unfold filterSet. induction v as [|[p cs] v IH]; [done|].
  cbn [List.map List.filter fst snd].
  destruct (0 <? length (List.filter keep cs)) eqn:E; [|exact IH].
  cbn [List.map List.filter fst snd].
  assert (List.filter keep (List.filter keep cs) = List.filter keep cs) as Hf.
  { clear. induction cs as [|c cs IH]; [done|]. cbn.
    destruct (keep c) eqn:E; cbn; rewrite ?E; by rewrite IH. }
  rewrite Hf, E. by rewrite IH.
Qed.

(** What is left of a filtered set: plugins of the original set, each
    with exactly its checks that pass, and at least one of them. *)
Lemma elem_of_filterSet keep v p cs :
  (p, cs) ∈ filterSet keep v ↔
  cs ≠ [] ∧ ∃ cs0, (p, cs0) ∈ v ∧ cs = List.filter keep cs0.
Proof.
  unfold filterSet. rewrite filter_elem_of, list_elem_of_In, List.in_map_iff. split.
  - intros [([p0 cs0] & Heq & Hin%list_elem_of_In) Hlen].
    cbn [fst snd] in *. injection Heq as <- <-.
    apply Nat.ltb_lt in Hlen. split; [|eauto].
    intros E. rewrite E in Hlen. cbn in Hlen. lia.
  - intros (Hne & cs0 & Hin & ->). split.
    + exists (p, cs0). split; [done | by apply list_elem_of_In].
    + cbn [snd]. apply Nat.ltb_lt. destruct (List.filter keep cs0); [done | cbn; lia].
Qed.

End Views.

Section FilterView.

Import core Spec.
Context `{GoRuntime}.

Lemma keptChecks_alt call h p :
  keptChecks call h p = List.filter (keepsPtr call h) (default [] (pluginChecks h p)).
Proof. unfold keptChecks. by destruct (pluginChecks h p). Qed.

(** The filter on a well-formed signature set leaves a well-formed
    signature set, which shows the filtered set. *)
Lemma runFilter_view call h0 s v0 :
  wf h0 s →
  view h0 s = Some v0 →
  ∃ hF,
    runFilter call s h0 = Some (tt, hF)
    ∧ checkObjs hF = checkObjs h0
    ∧ wf hF s
    ∧ view hF s = Some (filterSet (keepsPtr call h0) v0).
Proof.
  intros Hwf Hv0. pose proof Hwf as (sg & ps & Hs & Hcap & Hps & Hnd & Hpl & Hsep).
  destruct (runFilter_spec call h0 s sg ps Hwf Hs Hps)
    as (hF & Hrun & Eco & Eso & Hseg & Hafter).
  set (keptP := List.filter (keepsPlugin call h0) ps) in *.
  exists hF. split; [exact Hrun|]. split; [exact Eco|].
  assert (length ps = s_len (Plugins sg)) as Hlen
    by by destruct (readSlice_Some _ _ _ Hps).
  assert (length keptP ≤ s_len (Plugins sg)) as Hk
    by (rewrite <- Hlen; apply List.filter_length_le).
  assert (sigObjs hF !! s = Some {| Plugins := withLen (Plugins sg) (length keptP) |})
    as HsF by by rewrite Eso, lookup_insert_eq.
  assert (readSlice (pluginArrs hF) (withLen (Plugins sg) (length keptP)) = Some keptP)
    as HpsF.
  { rewrite (readSlice_withLen _ _ _ _ Hseg Hk). by rewrite take_app_length. }
  assert (∀ p, p ∈ keptP →
            ∃ pl cs, p ∈ ps ∧ pluginObjs h0 !! p = Some pl
              ∧ readSlice (checkArrs h0) (Checks pl) = Some cs
              ∧ keptChecks call h0 p = List.filter (keepsPtr call h0) cs
              ∧ 0 < length (keptChecks call h0 p)
              ∧ pluginObjs hF !! p
                = Some (setChecks pl (withLen (Checks pl) (length (keptChecks call h0 p))))
              ∧ readSlice (checkArrs hF)
                  (withLen (Checks pl) (length (keptChecks call h0 p)))
                = Some (keptChecks call h0 p)) as Hkept.
  { intros p [Hp Hkp]%filter_elem_of.
    destruct (Hafter p Hp) as (pl & cs & Hpl0 & Hcs0 & HplF & HcsF).
    assert (keptChecks call h0 p = List.filter (keepsPtr call h0) cs) as Ek.
    { unfold keptChecks, pluginChecks. by rewrite Hpl0, Hcs0. }
    unfold keepsPlugin in Hkp. rewrite <- Ek in *. rewrite Hkp in HplF.
    exists pl, cs. split_and!; [done..| by apply Nat.ltb_lt | done |].
    rewrite (readSlice_withLen _ _ _ _ HcsF).
    - by rewrite take_app_length.
    - destruct (readSlice_Some _ _ _ Hcs0) as [<- _]. rewrite Ek.
      apply List.filter_length_le. }
  split.
  - (* well-formed *)
    exists {| Plugins := withLen (Plugins sg) (length keptP) |}, keptP.
    split; [exact HsF|]. split; [cbn; lia|]. split; [exact HpsF|].
    split; [by apply filter_NoDup|]. split.
    + intros p Hp. destruct (Hkept p Hp) as (pl & cs & Hin & Hpl0 & Hcs0 & Ek & Hpos & HplF & HcsF).
      eexists _, _. split; [exact HplF|]. cbn [setChecks Checks withLen s_len s_cap].
      destruct (Hpl p Hin) as (pl' & cs' & Hpl' & Hcap' & Hcs' & Hvalid).
      assert (pl' = pl) as -> by congruence. assert (cs' = cs) as -> by congruence.
      split.
      { destruct (readSlice_Some _ _ _ Hcs0) as [Hl _].
        pose proof (List.filter_length_le (keepsPtr call h0) cs). rewrite Ek. lia. }
      split; [exact HcsF|].
      intros c Hc. rewrite Ek in Hc. apply filter_elem_of in Hc as [Hc _].
      rewrite Eco. by apply Hvalid.
    + intros p q pl' ql' Hp Hq Hne HplF' HqlF'.
      destruct (Hkept p Hp) as (pl & cs & Hin & Hpl0 & Hcs0 & Ek & Hpos & HplF & _).
      destruct (Hkept q Hq) as (ql & qcs & Hqin & Hql0 & Hqcs0 & Eqk & Hqpos & HqlF & _).
      assert (pl' = setChecks pl (withLen (Checks pl) (length (keptChecks call h0 p))))
        as -> by congruence.
      assert (ql' = setChecks ql (withLen (Checks ql) (length (keptChecks call h0 q))))
        as -> by congruence.
      cbn [setChecks Checks withLen s_len s_arr].
      right; right.
      destruct (Hsep p q pl ql Hin Hqin Hne Hpl0 Hql0) as [E | [E | E]]; [..|done].
      * destruct (readSlice_Some _ _ _ Hcs0) as [Hl _].
        destruct cs; [rewrite Ek in Hpos; cbn in Hpos; lia | cbn in Hl; lia].
      * destruct (readSlice_Some _ _ _ Hqcs0) as [Hl _].
        destruct qcs; [rewrite Eqk in Hqpos; cbn in Hqpos; lia | cbn in Hl; lia].
  - (* the view *)
    destruct (view_inv _ _ _ Hv0) as (ps0 & Hps0 & _ & ->).
    assert (ps0 = ps) as ->.
    { unfold pluginList in Hps0. rewrite Hs in Hps0. congruence. }
    rewrite (view_Some hF s keptP).
    + f_equal. rewrite filterSet_fmap.
      erewrite (List.filter_ext _ (keepsPlugin call h0)).
      2: { intros p. unfold keepsPlugin. by rewrite keptChecks_alt. }
      fold keptP. apply list_fmap_ext. intros i p Hi.
      assert (p ∈ keptP) as Hp by (apply list_elem_of_lookup; eauto).
      destruct (Hkept p Hp) as (pl & cs & _ & _ & _ & _ & _ & HplF & HcsF).
      unfold pluginChecks at 1. rewrite HplF. cbn [setChecks Checks].
      rewrite HcsF. cbn. by rewrite keptChecks_alt.
    + unfold pluginList. by rewrite HsF.
    + intros p Hp.
      destruct (Hkept p Hp) as (pl & cs & _ & _ & _ & _ & _ & HplF & HcsF).
      unfold pluginChecks. rewrite HplF. cbn [setChecks Checks]. rewrite HcsF. eauto.
Qed.

End FilterView.

Section WellFormed.

Import core Spec.

(** The test is sound. *)
Lemma wellFormed_sound h s : wellFormed h s = true → wf h s.
Proof.
  unfold wellFormed, wf.
  destruct (sigObjs h !! s) as [sg|] eqn:Hs; [|done].
  intros [Hcap Hrest]%andb_true_iff.
  destruct (readSlice (pluginArrs h) (Plugins sg)) as [ps|] eqn:Hps; [|done].
  apply andb_true_iff in Hrest as [[Hnd Hok]%andb_true_iff Hap].
  exists sg, ps. split; [done|]. split; [by apply Nat.leb_le|]. split; [done|].
  split; [by apply bool_decide_eq_true in Hnd|].
  rewrite forallb_forall in Hok, Hap. split.
  - intros p Hp%list_elem_of_In. specialize (Hok p Hp). unfold pluginOk in Hok.
    destruct (pluginObjs h !! p) as [pl|] eqn:Hpl; [|done].
    apply andb_true_iff in Hok as [Hc Hcs].
    destruct (readSlice (checkArrs h) (Checks pl)) as [cs|] eqn:Hcs'; [|done].
    exists pl, cs. split; [done|]. split; [by apply Nat.leb_le|]. split; [done|].
    rewrite forallb_forall in Hcs. intros c Hc'%list_elem_of_In.
    exact (proj1 (bool_decide_eq_true _) (Hcs c Hc')).
  - intros p q pl ql Hp%list_elem_of_In Hq%list_elem_of_In Hne Hpl Hql.
    specialize (Hap p Hp). rewrite forallb_forall in Hap. specialize (Hap q Hq).
    apply orb_true_iff in Hap as [Heq%Nat.eqb_eq | Hap]; [done|].
    unfold apart in Hap. rewrite Hpl, Hql in Hap.
    apply orb_true_iff in Hap as [[E%Nat.eqb_eq | E%Nat.eqb_eq]%orb_true_iff | E];
      [by left | by right; left |].
    right; right. apply negb_true_iff, Nat.eqb_neq in E. done.
Qed.

End WellFormed.

Section FilterTheorems.

Import core Spec.
Context `{GoRuntime}.

(** C5, as amended: on a signature set as loading builds it, a filter
    call by severity or by names mutates no check; it filters in place:
    the slice of the plugin list taken before the call shows afterwards
    the kept plugins followed by its old elements at the remaining
    positions, the slice of a plugin's checks taken before the call
    likewise shows the kept checks followed by its old elements, and the
    plugin itself has its [Checks] shortened when a check was kept and is
    unchanged otherwise. *)
Theorem filter_in_place call h s sg ps :
  wf h s →
  sigObjs h !! s = Some sg →
  readSlice (pluginArrs h) (Plugins sg) = Some ps →
  let keptP := List.filter (keepsPlugin call h) ps in
  ∃ h',
    runFilter call s h = Some (tt, h')
    ∧ checkObjs h' = checkObjs h
    ∧ readSlice (pluginArrs h') (Plugins sg) = Some (keptP ++ drop (length keptP) ps)
    ∧ ∀ p pl cs,
        p ∈ ps →
        pluginObjs h !! p = Some pl →
        readSlice (checkArrs h) (Checks pl) = Some cs →
        let kept := List.filter (keepsPtr call h) cs in
        readSlice (checkArrs h') (Checks pl) = Some (kept ++ drop (length kept) cs)
        ∧ pluginObjs h' !! p
          = Some (if (0 <? length kept)
                  then setChecks pl (withLen (Checks pl) (length kept))
                  else pl).
Proof.
  intros Hwf Hs Hps keptP.
  destruct (runFilter_spec call h s sg ps Hwf Hs Hps) as (h' & Hrun & Eco & _ & Hseg & Hafter).
  exists h'. split; [done|]. split; [done|]. split; [done|].
  intros p pl cs Hp Hpl Hcs kept.
  destruct (Hafter p Hp) as (pl' & cs' & Hpl' & Hcs' & Hobj & Harr).
  assert (pl' = pl) as -> by congruence. assert (cs' = cs) as -> by congruence.
  done.
Qed.

(** C6, as amended: on a signature set as loading builds it (slices
    within their backing arrays, no nil pointer, no plugin listed twice,
    no two plugins sharing the backing array of their checks),
    [FilterBySeverity] returns; it keeps, in every plugin, exactly the
    checks whose severity is the given level, drops the plugins left
    without a check, and leaves the checks themselves as they are; run a
    second time with the same level, it changes neither the plugin list
    nor the check list of any plugin. *)
Theorem FilterBySeverity_idempotent h s L v :
  wf h s →
  view h s = Some v →
  let keep := keepsPtr (BySeverity L) h in
  ∃ h1,
    FilterBySeverity s L h = Some (tt, h1)
    ∧ checkObjs h1 = checkObjs h
    ∧ view h1 s = Some (filterSet keep v)
    ∧ (∀ c, keep c = true ↔ ∃ ck, checkObjs h !! c = Some ck ∧ Severity ck = L)
    ∧ (∀ p cs, (p, cs) ∈ filterSet keep v ↔
                 cs ≠ [] ∧ ∃ cs0, (p, cs0) ∈ v ∧ cs = List.filter keep cs0)
    ∧ ∃ h2,
        FilterBySeverity s L h1 = Some (tt, h2)
        ∧ checkObjs h2 = checkObjs h1
        ∧ view h2 s = view h1 s.
Proof.
  intros Hwf Hv keep.
  destruct (runFilter_view (BySeverity L) h s v Hwf Hv) as (h1 & Hrun & Eco & Hwf1 & Hv1).
  exists h1. split; [exact Hrun|]. split; [exact Eco|]. split; [exact Hv1|].
  split.
  { intros c. unfold keep, keepsPtr. destruct (checkObjs h !! c) as [ck|]; cbn.
    - rewrite String.eqb_eq. split; [eauto | by intros (? & [= <-] & ?)].
    - split; [done | by intros (? & ? & ?)]. }
  split; [intros p cs; apply elem_of_filterSet|].
  destruct (runFilter_view (BySeverity L) h1 s _ Hwf1 Hv1) as (h2 & Hrun2 & Eco2 & _ & Hv2).
  exists h2. split; [exact Hrun2|]. split; [exact Eco2|].
  rewrite Hv2, Hv1. f_equal.
  rewrite (filterSet_ext _ keep) by (intros c; by apply keepsPtr_same).
  apply filterSet_idem.
Qed.

End FilterTheorems.

(** ** Lowering and occurrence up to case *)

Section CaseFold.

Import GoStrings Spec.






Lemma HasPrefix_spec s p : HasPrefix s p = true ↔ ∃ post, s = p +:+ post.
Proof.
  revert s. induction p as [|a p IH]; intros s.
  - rewrite HasPrefix_empty. split; [eauto | done].
  - destruct s as [|b s]; cbn [HasPrefix].
    + split; [done | by intros [? ?]].
    + destruct (Ascii.eqb_spec a b) as [->|Hne].
      * rewrite IH. split; intros [post Hp]; exists post.
        -- by rewrite append_cons, Hp.
        -- rewrite append_cons in Hp. by injection Hp.
      * split; [done|]. intros [post Hp]. rewrite append_cons in Hp.
        injection Hp as Hb _. by destruct Hne.
Qed.

(** [strings.Contains] is occurrence as a run of consecutive bytes. *)
Lemma Contains_spec s sub :
  Contains s sub = true ↔ ∃ pre post, s = pre +:+ sub +:+ post.
Proof.
  induction s as [|b s IH]; cbn [Contains]; rewrite orb_true_iff, HasPrefix_spec.
  - split.
    + intros [[post Hp] | ?]; [|done]. by exists "", post.
    + intros (pre & post & Hp). left. destruct pre; [eauto|done].
  - rewrite IH. split.
    + intros [[post Hp] | (pre & post & Hp)].
      * by exists "", post.
      * exists (String b pre), post. by rewrite append_cons, Hp.
    + intros (pre & post & Hp). destruct pre as [|c pre].
      * left. eauto.
      * right. rewrite append_cons in Hp. injection Hp as _ Hp. eauto.
Qed.


End CaseFold.

Section NamesTheorem.

Import core Spec.
Context `{GoRuntime}.


End NamesTheorem.

Lemma exampleHeap_wf : Spec.wf Spec.exampleHeap 40.
Proof. apply wellFormed_sound. vm_compute. reflexivity. Qed.

Lemma exampleHeap_view :
  Spec.view Spec.exampleHeap 40 = Some [(10, [1; 2]); (11, [2]); (12, [2; 3])].
Proof. vm_compute. reflexivity. Qed.

Lemma filter_in_place_witness :
  ∃ h', Spec.runFilter (H := Spec.exampleRuntime) (Spec.BySeverity "High") 40
          Spec.exampleHeap = Some (tt, h')
        ∧ core.readSlice (core.pluginArrs h') (Spec.wholeSlice 30 3) = Some [10; 12; 12].
Proof.
  destruct (filter_in_place (H := Spec.exampleRuntime) (Spec.BySeverity "High")
              Spec.exampleHeap 40 {| core.Plugins := Spec.wholeSlice 30 3 |} [10; 11; 12]
              exampleHeap_wf eq_refl eq_refl) as (h' & Hrun & _ & Hseg & _).
  exists h'. split; [exact Hrun|]. etrans; [exact Hseg|]. vm_compute. reflexivity.
Defined.

(** C5, as stated, fails for both filters: after the call, the slice of
    the plugin list taken before it shows the plugin at 12 twice and the
    plugin at 11 no more, and the slice of the checks of the plugin at
    12 shows the check at 3 twice. *)
Lemma filter_aliases_counterexample :
  Spec.wf Spec.exampleHeap 40
  ∧ ¬ Spec.aliasesKeepContents (H := Spec.exampleRuntime) (Spec.BySeverity "High")
        Spec.exampleHeap 40
  ∧ ¬ Spec.aliasesKeepContents (H := Spec.exampleRuntime) (Spec.ByNames ["admin"])
        Spec.exampleHeap 40.
Proof.
  split; [exact exampleHeap_wf|].
  split; intros Hc.
  - destruct (Hc _ eq_refl) as [Hplugins Hchecks].
    specialize (Hplugins _ eq_refl). vm_compute in Hplugins. discriminate.
  - destruct (Hc _ eq_refl) as [Hplugins Hchecks].
    specialize (Hchecks 12 _ eq_refl). vm_compute in Hchecks. discriminate.
Qed.

Lemma FilterBySeverity_idempotent_witness :
  ∃ h1, core.FilterBySeverity (H := Spec.exampleRuntime) 40 "High" Spec.exampleHeap
          = Some (tt, h1)
        ∧ Spec.view h1 40 = Some [(10, [1]); (12, [3])]
        ∧ ∃ h2, core.FilterBySeverity (H := Spec.exampleRuntime) 40 "High" h1 = Some (tt, h2)
                ∧ Spec.view h2 40 = Some [(10, [1]); (12, [3])].
Proof.
  destruct (FilterBySeverity_idempotent (H := Spec.exampleRuntime) Spec.exampleHeap 40 "High"
              _ exampleHeap_wf exampleHeap_view)
    as (h1 & Hrun & _ & Hv & _ & _ & h2 & Hrun2 & _ & Hv2).
  assert (Spec.view h1 40 = Some [(10, [1]); (12, [3])]) as Hv'
    by (rewrite Hv; vm_compute; reflexivity).
  exists h1. split; [exact Hrun|]. split; [exact Hv'|].
  exists h2. split; [exact Hrun2|]. by rewrite Hv2.
Defined.


(** C6, as stated for every signature set, fails.  With a nil pointer
    among the checks of a plugin, the call panics when it reads the
    severity of that check.  With two plugins over one backing array,
    the call returns, but the plugin at 11, whose checks were those at 1
    and 2, is left with the checks at 1 and 3: the plugin at 10, filtered
    first, has written the check at 3 where the check at 2 was. *)
Lemma FilterBySeverity_idempotent_counterexample :
  (Spec.view Spec.nilCheckHeap 40 = Some [(10, [1; 0])]
   ∧ core.FilterBySeverity (H := Spec.exampleRuntime) 40 "High" Spec.nilCheckHeap = None
   ∧ ¬ Spec.filtersSet (H := Spec.exampleRuntime) (Spec.BySeverity "High")
         Spec.nilCheckHeap 40)
  ∧ (Spec.view Spec.sharedHeap 40 = Some [(10, [2; 3]); (11, [1; 2])]
     ∧ (∃ h1, core.FilterBySeverity (H := Spec.exampleRuntime) 40 "High" Spec.sharedHeap
              = Some (tt, h1)
              ∧ Spec.view h1 40 = Some [(10, [3]); (11, [1; 3])])
     ∧ ¬ Spec.filtersSet (H := Spec.exampleRuntime) (Spec.BySeverity "High")
           Spec.sharedHeap 40).
Proof.
  split; (split; [vm_compute; reflexivity|]); split.
  - vm_compute. reflexivity.
  - intros Hc. destruct (Hc _ eq_refl) as (h1 & Hrun & _).
    vm_compute in Hrun. discriminate.
  - eexists. split; vm_compute; reflexivity.
  - intros Hc. destruct (Hc _ eq_refl) as (h1 & Hrun & Hv).
    vm_compute in Hrun. injection Hrun as <-. vm_compute in Hv. discriminate.
Qed.


(** ** What the validation messages name *)

Section ValidationMessages.

Import app Spec.

(** The message of a missing field names the plugin of the check. *)
Lemma checkFields_missing_names_plugin check msg :
  checkFields check = Some msg →
  data.Description check = None ∨ data.Remediation check = None
  ∨ data.Severity check = None →
  GoStrings.Contains msg (data.PluginName check) = true.
Proof.
  unfold checkFields. intros Hmsg Hmissing. apply Contains_spec.
  destruct (data.Description check);
    [destruct (data.Remediation check); [destruct (data.Severity check)|]|].
  - by destruct Hmissing as [? | [? | ?]].
  - injection Hmsg as <-. eauto.
  - injection Hmsg as <-. eauto.
  - injection Hmsg as <-. eauto.
Qed.

(** The message of an unknown severity is made of fixed text and the
    severity alone. *)
Lemma checkFields_unknown_severity check sev msg :
  data.Description check ≠ None → data.Remediation check ≠ None →
  data.Severity check = Some sev →
  checkFields check = Some msg →
  msg = " ------ Unknown severity type : " +:+ sev
        +:+ " . Only Informational / Low / Medium / High are valid severity types.".
Proof.
  unfold checkFields. intros Hd Hr ->.
  destruct (data.Description check); [|done].
  destruct (data.Remediation check); [|done].
  destruct (data.IsValid sev); [by intros [= <-] | done].
Qed.

(** The message validation ends with is the one of some check of the
    configuration that does not pass. *)
Lemma CheckStructFields_reports conf msg :
  CheckStructFields conf = Some msg →
  ∃ plugin check,
    plugin ∈ data.Plugins conf ∧ check ∈ data.Checks plugin
    ∧ ¬ validCheck check ∧ checkFields check = Some msg.
Proof.
  unfold CheckStructFields.
  induction (data.Plugins conf) as [|plugin plugins IH]; [done|].
  cbn [pluginsFieldsLoop].
  destruct (checksFieldsLoop (data.Checks plugin)) as [msg'|] eqn:E.
  - intros [= ->]. exists plugin.
    assert (∃ check, check ∈ data.Checks plugin ∧ ¬ validCheck check
                     ∧ checkFields check = Some msg) as (check & ? & ? & ?).
    { clear IH. induction (data.Checks plugin) as [|c l IHl]; [done|].
      cbn [checksFieldsLoop] in E.
      destruct (checkFields c) as [m|] eqn:Ec.
      - injection E as ->. exists c. split; [apply list_elem_of_here|].
        split; [|done]. intros Hv%checkFields_None. congruence.
      - destruct (IHl E) as (check & Hin & Hnv & Hm).
        exists check. split; [by apply list_elem_of_further | done]. }
    exists check. split; [apply list_elem_of_here | done].
  - intros Hm. destruct (IH Hm) as (p & c & Hp & Hc & Hrest).
    exists p, c. split; [by apply list_elem_of_further | done].
Qed.

End ValidationMessages.

(** ** The matcher, condition by condition *)

Section MatchConditions.

Import GoStrings core Spec.

Lemma splitFrom_second_piece cur e :
  splitFrom ":" 0 cur e !! 1%nat = valuePart e.
Proof.
  revert cur. induction e as [|c e IH]; intros cur; [done|].
  cbn [splitFrom]. rewrite HasPrefix_colon, Ascii.eqb_sym.
  unfold valuePart. cbn [afterColon].
  destruct (Ascii.eqb c ":").
  - change (String.length ":" - 1) with 0.
    change ((?x :: ?l) !! 1%nat) with (l !! 0%nat).
    by rewrite splitFrom_head.
  - apply IH.
Qed.

Lemma Split_second_piece e : Split e ":" !! 1%nat = valuePart e.
Proof. apply splitFrom_second_piece. Qed.

(** The value loop reads its first argument at index 1 only. *)
Lemma valuesLoop_spec p v b :
  valuesLoop p v b =
    match p !! 1%nat with
    | Some sub => Some (b || existsb (λ n, Contains n sub) v)
    | None => match v with [] => Some b | _ => None end
    end.
Proof.
  revert b. induction v as [|n v IH]; intros b; cbn [valuesLoop existsb].
  - destruct (p !! 1%nat); [by rewrite orb_false_r | done].
  - destruct (p !! 1%nat) as [sub|] eqn:E; [|done].
    rewrite IH. f_equal. destruct (Contains n sub), b; done.
Qed.

Lemma mustMatchAllLoop_None body l :
  mustMatchAllLoop body l = None ↔ ∀ m, m ∈ l → Contains body m = true.
Proof.
  induction l as [|m l IH]; cbn [mustMatchAllLoop].
  - split; [by intros _ m ?%elem_of_nil | done].
  - destruct (Contains body m) eqn:E; cbn [negb].
    + rewrite IH. split.
      * intros Hl m' [->|?]%elem_of_cons; [done | by apply Hl].
      * intros Hl m' Hm'. apply Hl. by apply list_elem_of_further.
    + split; [done|]. intros Hl.
      rewrite (Hl m) in E by apply list_elem_of_here. done.
Qed.

Lemma mustMatchOneLoop_spec body l found :
  mustMatchOneLoop body l found = found || existsb (Contains body) l.
Proof.
  revert found. induction l as [|m l IH]; intros found; cbn [mustMatchOneLoop existsb].
  - by rewrite orb_false_r.
  - rewrite IH. destruct (Contains body m), found; done.
Qed.

Lemma mustNotMatchLoop_None body l :
  mustNotMatchLoop body l = None ↔ ∀ m, m ∈ l → Contains body m = false.
Proof.
  induction l as [|m l IH]; cbn [mustNotMatchLoop].
  - split; [by intros _ m ?%elem_of_nil | done].
  - destruct (Contains body m) eqn:E.
    + split; [done|]. intros Hl.
      rewrite (Hl m) in E by apply list_elem_of_here. done.
    + rewrite IH. split.
      * intros Hl m' [->|?]%elem_of_cons; [done | by apply Hl].
      * intros Hl m' Hm'. apply Hl. by apply list_elem_of_further.
Qed.

Lemma headersLoop_None hdr l :
  headersLoop hdr l = None ↔
  ∀ e, e ∈ l →
    ∃ v sub n, hdr !! namePart e = Some v ∧ valuePart e = Some sub
               ∧ n ∈ v ∧ Contains n sub = true.
Proof.
  induction l as [|e l IH]; cbn [headersLoop].
  - split; [by intros _ e ?%elem_of_nil | done].
  - rewrite Split_head. unfold lookup2.
    destruct (hdr !! namePart e) as [v|] eqn:Ev.
    + rewrite valuesLoop_spec, Split_second_piece.
      destruct (valuePart e) as [sub|] eqn:Es.
      * cbn [orb]. destruct (existsb (λ n, Contains n sub) v) eqn:Ex; cbn [negb].
        -- rewrite IH. apply existsb_exists in Ex as (n & Hn%list_elem_of_In & Hc).
           split.
           ++ intros Hl e' [->|?]%elem_of_cons; [|by apply Hl].
              exists v, sub, n. by rewrite Ev, Es.
           ++ intros Hl e' He'. apply Hl. by apply list_elem_of_further.
        -- split; [done|]. intros Hl.
           destruct (Hl e) as (v' & sub' & n & Hv' & Hs' & Hn & Hc);
             [apply list_elem_of_here|].
           assert (v' = v) as -> by congruence.
           assert (sub' = sub) as -> by congruence.
           assert (existsb (λ n, Contains n sub) v = true) as Ht
             by (apply existsb_exists; exists n; split; [by apply list_elem_of_In | done]).
           congruence.
      * assert (¬ ∀ e', e' ∈ e :: l →
                  ∃ v sub n, hdr !! namePart e' = Some v ∧ valuePart e' = Some sub
                             ∧ n ∈ v ∧ Contains n sub = true) as Hno.
        { intros Hl. destruct (Hl e) as (? & ? & ? & _ & Hs & _);
            [apply list_elem_of_here | congruence]. }
        destruct v; (split; [done | by intros ?%Hno]).
    + split; [done|]. intros Hl.
      destruct (Hl e) as (? & ? & ? & Hv & _); [apply list_elem_of_here | congruence].
Qed.

Lemma noHeadersLoop_None hdr l :
  noHeadersLoop hdr l = None ↔ ∀ e, e ∈ l → hdr !! namePart e = None.
Proof.
  rewrite noHeadersLoop_spec.
  destruct (existsb _ l) eqn:Ex.
  - split; [done|]. intros Hl.
    apply existsb_exists in Ex as (e & He%list_elem_of_In & Hk%bool_decide_eq_true).
    rewrite (Hl e He) in Hk. by destruct Hk.
  - split; [|done]. intros _ e He.
    destruct (hdr !! namePart e) eqn:Ek; [|done].
    assert (existsb (λ e, bool_decide (is_Some (hdr !! namePart e))) l = true) as Ht.
    { apply existsb_exists. exists e. split; [by apply list_elem_of_In|].
      apply bool_decide_eq_true. by rewrite Ek. }
    congruence.
Qed.

Lemma noHeadersLoop_cases hdr l :
  noHeadersLoop hdr l = None ∨ noHeadersLoop hdr l = Some (Returns false).
Proof. rewrite noHeadersLoop_spec. destruct (existsb _ l); auto. Qed.

Lemma and_iff_both (A A' B B' : Prop) : (A ↔ A') → (B ↔ B') → (A ∧ B ↔ A' ∧ B').
Proof. tauto. Qed.

Lemma andThen_true (a : flow) k :
  a ≠ Some (Returns true) →
  andThen a k = Returns true ↔ a = None ∧ k = Returns true.
Proof.
  intros Ha. destruct a as [[[]|]|]; cbn; try done; split; (done || by intros [? ?]).
Qed.

(** X1: [Match] returns [true] exactly when the six conditions hold:
    the status code, when set, is the one of the response; every
    [all_match] string occurs in the body; some [match] string does, when
    there is one; no [no_match] string does; every [headers] entry names
    a header of the response one of whose values contains the piece of
    the entry between its first colon and the next; no [no_headers]
    entry names a header of the response. *)
Theorem Match_true_iff_conditions c r : Match c r = Returns true ↔ conditions c r.
Proof.
  unfold Match, conditions.
  rewrite andThen_true by (destruct (StatusCode c); [destruct (negb _)|]; done).
  rewrite andThen_true
    by (by destruct (mustMatchAllLoop_cases (internal.Body r) (MustMatchAll c)) as [-> | ->]).
  rewrite andThen_true
    by (destruct (0 <? _); [destruct (negb _)|]; done).
  rewrite andThen_true
    by (destruct (0 <? _); [|done];
        by destruct (mustNotMatchLoop_cases (internal.Body r) (MustNotMatch c)) as [-> | ->]).
  rewrite andThen_true
    by (destruct (0 <? _); [|done];
        by destruct (headersLoop_cases (internal.Header r) (Headers c)) as [-> | [-> | ->]]).
  rewrite andThen_true
    by (destruct (0 <? _); [|done];
        by destruct (noHeadersLoop_cases (internal.Header r) (NoHeaders c)) as [-> | ->]).
  assert (∀ (l : list string) (a : flow) (P : Prop),
            (a = None ↔ P) → (l = [] → P) →
            ((if 0 <? length l then a else None) = None ↔ P)) as Hguard.
  { intros l a P Ha Hnil. destruct l; cbn; [|done]. split; [by intros _; apply Hnil | done]. }
  apply and_iff_both; [|apply and_iff_both; [|apply and_iff_both;
    [|apply and_iff_both; [|apply and_iff_both]]]].
  - destruct (StatusCode c) as [code|].
    + destruct (Z.eqb_spec (int32 (internal.StatusCode r)) code) as [E|E]; cbn.
      * split; [by intros _ ? [= <-] | done].
      * split; [done|]. intros Hc. by destruct E; apply Hc.
    + split; [by intros _ ? ? | done].
  - apply mustMatchAllLoop_None.
  - rewrite mustMatchOneLoop_spec. cbn [orb].
    destruct (MustMatchOne c) as [|m l] eqn:El; cbn [length Nat.ltb Nat.leb].
    + split; [by left | done].
    + destruct (existsb (Contains (internal.Body r)) (m :: l)) eqn:Ex; cbn [negb].
      * apply existsb_exists in Ex as (m' & Hm'%list_elem_of_In & Hc).
        split; [intros _; right; eauto | done].
      * split; [done|]. intros [? | (m' & Hm' & Hc)]; [done|].
        assert (existsb (Contains (internal.Body r)) (m :: l) = true) as Ht
          by (apply existsb_exists; exists m'; split; [by apply list_elem_of_In | done]).
        congruence.
  - apply Hguard; [apply mustNotMatchLoop_None|]. by intros -> m ?%elem_of_nil.
  - apply Hguard; [apply headersLoop_None|]. by intros -> e ?%elem_of_nil.
  - rewrite <- (Hguard (NoHeaders c) _ _ (noHeadersLoop_None (internal.Header r) _))
      by (by intros -> e ?%elem_of_nil).
    split; [by intros [? _] | done].
Qed.

Lemma headersLoop_sameParts hdr l l' :
  Forall2 sameParts l l' → headersLoop hdr l = headersLoop hdr l'.
Proof.
  induction 1 as [|e e' l l' [Hn Hv] _ IH]; [done|].
  cbn [headersLoop]. rewrite !Split_head, Hn. unfold lookup2.
  destruct (hdr !! namePart e') as [v|]; [|done].
  by rewrite !valuesLoop_spec, !Split_second_piece, Hv, IH.
Qed.

Lemma noHeadersLoop_names hdr l l' :
  namePart <$> l = namePart <$> l' → noHeadersLoop hdr l = noHeadersLoop hdr l'.
Proof.
  intros Hl. rewrite !noHeadersLoop_spec.
  assert (∀ l0, existsb (λ e, bool_decide (is_Some (hdr !! namePart e))) l0
                = existsb (λ n, bool_decide (is_Some (hdr !! n))) (namePart <$> l0)) as Hmap.
  { intros l0. induction l0 as [|e l0 IH]; [done|]. cbn. by rewrite IH. }
  by rewrite !Hmap, Hl.
Qed.

(** X2: of a [headers] entry [Match] reads the name and the piece
    between the first colon and the next, and of a [no_headers] entry the
    name alone: two checks whose entries agree on these parts, and whose
    other conditions are the same, end alike on every response. *)
Theorem Match_reads_entry_parts c c' r :
  StatusCode c = StatusCode c' →
  MustMatchAll c = MustMatchAll c' →
  MustMatchOne c = MustMatchOne c' →
  MustNotMatch c = MustNotMatch c' →
  Forall2 sameParts (Headers c) (Headers c') →
  namePart <$> NoHeaders c = namePart <$> NoHeaders c' →
  Match c r = Match c' r.
Proof.
  intros Hs Ha Ho Hn Hh Hnh. unfold Match.
  rewrite Hs, Ha, Ho, Hn.
  rewrite (headersLoop_sameParts _ _ _ Hh), (noHeadersLoop_names _ _ _ Hnh).
  rewrite (Forall2_length _ _ _ Hh).
  assert (length (NoHeaders c) = length (NoHeaders c')) as ->
    by (by rewrite <- (length_fmap namePart), Hnh, length_fmap).
  done.
Qed.

Lemma Match_reads_entry_parts_witness :
  Match (headerCheck ["Location:http://intranet"] ["Server:nginx"])
        (response 302 "" {[ "Location" := ["https://login.example"] ]})
  = Match (headerCheck ["Location:http"] ["Server"])
          (response 302 "" {[ "Location" := ["https://login.example"] ]}).
Proof.
  apply Match_reads_entry_parts; try reflexivity.
  repeat constructor.
Defined.

Lemma int32_in_range x :
  (- 2 ^ 31 ≤ x < 2 ^ 31)%Z → int32 x = x.
Proof. intros Hx. unfold int32. rewrite Z.mod_small; lia. Qed.

(** X3: a check with a status code never matches a response with
    another status, whatever its other conditions are, and the call does
    not panic even when a [headers] entry lacks its colon. *)
Theorem Match_status_mismatch c r code :
  StatusCode c = Some code →
  (- 2 ^ 31 ≤ internal.StatusCode r < 2 ^ 31)%Z →
  internal.StatusCode r ≠ code →
  Match c r = Returns false.
Proof.
  intros Hs Hr Hne. unfold Match. rewrite Hs, int32_in_range by done.
  by destruct (Z.eqb_spec (internal.StatusCode r) code).
Qed.

Lemma Match_status_mismatch_witness :
  Match {| MustMatchOne := ["Login"]; MustMatchAll := []; MustNotMatch := [];
           StatusCode := Some 200%Z; Name := "admin"; Remediation := "";
           Severity := "High"; Description := "";
           Headers := ["Server"]; NoHeaders := [] |}
        (response 404 "Login" {[ "Server" := ["nginx"] ]})
  = Returns false.
Proof. by apply (Match_status_mismatch _ _ 200%Z). Defined.

End MatchConditions.

(** ** The filters, one after the other *)

Section FilterChains.

Import core Spec.
Context `{GoRuntime}.

Lemma filterSet_filterSet keep1 keep2 v :
  filterSet keep2 (filterSet keep1 v) = filterSet (λ c, keep1 c && keep2 c) v.
Proof.
  unfold filterSet. induction v as [|[p cs] v IH]; [done|].
  cbn [List.map List.filter fst snd].
  assert (List.filter keep2 (List.filter keep1 cs)
          = List.filter (λ c, keep1 c && keep2 c) cs) as Hf.
  { clear. induction cs as [|c cs IH]; [done|]. cbn [List.filter].
    destruct (keep1 c); cbn [andb List.filter]; [|done].
    destruct (keep2 c); by rewrite IH. }
  destruct (0 <? length (List.filter keep1 cs)) eqn:E1.
  - cbn [List.map List.filter fst snd]. rewrite Hf, IH. done.
  - rewrite IH.
    assert (List.filter keep1 cs = []) as Hnil
      by (destruct (List.filter keep1 cs); [done | cbn in E1; done]).
    rewrite <- Hf, Hnil. done.
Qed.

Lemma filterSet_none keep v : (∀ c, keep c = false) → filterSet keep v = [].
Proof.
  intros Hk. unfold filterSet. induction v as [|[p cs] v IH]; [done|].
  cbn [List.map List.filter fst snd].
  assert (List.filter keep cs = []) as ->.
  { clear -Hk. induction cs as [|c cs IH]; [done|]. cbn. by rewrite Hk. }
  exact IH.
Qed.

Lemma filterSet_all keep v :
  (∀ p cs c, (p, cs) ∈ v → c ∈ cs → keep c = true) →
  filterSet keep v = List.filter (λ pc, (0 <? length pc.2)) v.
Proof.
  intros Hk. unfold filterSet. f_equal.
  induction v as [|[p cs] v IH]; [done|]. cbn [List.map fst snd]. f_equal.
  - f_equal. apply filter_all_true, Forall_forall. intros c Hc.
    apply (Hk p cs c); [apply list_elem_of_here | done].
  - apply IH. intros p' cs' c Hin Hc. apply (Hk p' cs' c); [|done].
    by apply list_elem_of_further.
Qed.

(** Two filter calls in a row. *)
Lemma runFilter_twice call1 call2 h s v :
  wf h s →
  view h s = Some v →
  ∃ h1 h2,
    runFilter call1 s h = Some (tt, h1)
    ∧ runFilter call2 s h1 = Some (tt, h2)
    ∧ checkObjs h2 = checkObjs h
    ∧ wf h2 s
    ∧ view h2 s = Some (filterSet (λ c, keepsPtr call1 h c && keepsPtr call2 h c) v).
Proof.
  intros Hwf Hv.
  destruct (runFilter_view call1 h s v Hwf Hv) as (h1 & Hrun1 & Eco1 & Hwf1 & Hv1).
  destruct (runFilter_view call2 h1 s _ Hwf1 Hv1) as (h2 & Hrun2 & Eco2 & Hwf2 & Hv2).
  exists h1, h2. split; [done|]. split; [done|]. split; [congruence|]. split; [done|].
  rewrite Hv2. f_equal.
  rewrite (filterSet_ext _ (keepsPtr call2 h)) by (intros c; by apply keepsPtr_same).
  apply filterSet_filterSet.
Qed.

(** X4: on a signature set as loading builds it, two filter calls can be
    made in either order: both orders end without a panic and show the
    same signature set, the one filtered by both conditions at once. *)
Theorem filters_commute call1 call2 h s v :
  wf h s →
  view h s = Some v →
  ∃ h1 h12 h2 h21,
    runFilter call1 s h = Some (tt, h1) ∧ runFilter call2 s h1 = Some (tt, h12)
    ∧ runFilter call2 s h = Some (tt, h2) ∧ runFilter call1 s h2 = Some (tt, h21)
    ∧ view h12 s = Some (filterSet (λ c, keepsPtr call1 h c && keepsPtr call2 h c) v)
    ∧ view h21 s = view h12 s.
Proof.
  intros Hwf Hv.
  destruct (runFilter_twice call1 call2 h s v Hwf Hv) as (h1 & h12 & R1 & R12 & _ & _ & V12).
  destruct (runFilter_twice call2 call1 h s v Hwf Hv) as (h2 & h21 & R2 & R21 & _ & _ & V21).
  exists h1, h12, h2, h21. split_and!; [done..|].
  rewrite V21, V12. f_equal. apply filterSet_ext. intros c. apply andb_comm.
Qed.

(** X5: the severity filter is an exact match and filtering is not
    undone: filtering by one severity and then by another one leaves no
    plugin at all. *)
Theorem FilterBySeverity_twice_empty h s L1 L2 v :
  wf h s →
  view h s = Some v →
  L1 ≠ L2 →
  ∃ h1 h2,
    FilterBySeverity s L1 h = Some (tt, h1)
    ∧ FilterBySeverity s L2 h1 = Some (tt, h2)
    ∧ view h2 s = Some [].
Proof.
  intros Hwf Hv Hne.
  destruct (runFilter_twice (BySeverity L1) (BySeverity L2) h s v Hwf Hv)
    as (h1 & h2 & R1 & R2 & _ & _ & V2).
  exists h1, h2. split; [exact R1|]. split; [exact R2|].
  rewrite V2, filterSet_none; [done|].
  intros c. unfold keepsPtr. destruct (checkObjs h !! c) as [ck|]; [|done]. cbn [keeps].
  destruct (String.eqb_spec (Severity ck) L1) as [E1|?]; [|done].
  destruct (String.eqb_spec (Severity ck) L2) as [E2|?]; [|done].
  congruence.
Qed.

(** X6: [FilterByNames] with no name keeps no check, so it drops every
    plugin. *)
Theorem FilterByNames_no_name h s :
  wf h s →
  ∃ h1, FilterByNames s [] h = Some (tt, h1) ∧ view h1 s = Some [].
Proof.
  intros Hwf. destruct (wf_view h s Hwf) as [v Hv].
  destruct (runFilter_view (ByNames []) h s v Hwf Hv) as (h1 & R1 & _ & _ & V1).
  exists h1. split; [exact R1|]. rewrite V1, filterSet_none; [done|].
  intros c. unfold keepsPtr. by destruct (checkObjs h !! c).
Qed.

Lemma wf_view_valid h s v p cs c :
  wf h s → view h s = Some v → (p, cs) ∈ v → c ∈ cs → is_Some (checkObjs h !! c).
Proof.
  intros (sg & ps & Hs & _ & Hps & _ & Hpl & _) Hv Hin Hc.
  destruct (view_inv _ _ _ Hv) as (ps' & Hps' & _ & ->).
  assert (ps' = ps) as -> by (unfold pluginList in Hps'; rewrite Hs in Hps'; congruence).
  apply list_elem_of_fmap in Hin as (p' & [= <- ->] & Hp).
  destruct (Hpl p Hp) as (pl & cs & Hpl' & _ & Hcs & Hvalid).
  unfold pluginChecks in Hc. rewrite Hpl', Hcs in Hc. by apply Hvalid.
Qed.

(** X7: the empty string is a name every check contains: on a
    signature set as loading builds it, [FilterByNames] with a list that
    holds it keeps every check of every plugin, and drops only the
    plugins that had no check. *)
Theorem FilterByNames_empty_name h s names v :
  wf h s →
  view h s = Some v →
  "" ∈ names →
  ∃ h1, FilterByNames s names h = Some (tt, h1)
        ∧ view h1 s = Some (List.filter (λ pc, (0 <? length pc.2)) v).
Proof.
  intros Hwf Hv Hin.
  destruct (runFilter_view (ByNames names) h s v Hwf Hv) as (h1 & R1 & _ & _ & V1).
  exists h1. split; [exact R1|]. rewrite V1. f_equal. apply filterSet_all.
  intros p cs c Hp Hc. destruct (wf_view_valid h s v p cs c Hwf Hv Hp Hc) as [ck Hck].
  unfold keepsPtr. rewrite Hck. cbn [keeps]. apply existsb_exists.
  exists "". split; [by apply list_elem_of_In|].
  unfold ToLower at 2. cbn [GoStrings.isASCII GoStrings.lowerBytes].
  destruct (ToLower (Name ck)); cbn [GoStrings.Contains]; by rewrite HasPrefix_empty.
Qed.

(** X8: a filter call on a signature set as loading builds it allocates
    nothing, and changes no [Signatures] other than its receiver, no
    plugin outside the set, no backing array of plugins other than the
    set's own, and no backing array of checks other than those of the
    plugins of the set. *)
Theorem filter_leaves_rest call h s sg ps :
  wf h s →
  sigObjs h !! s = Some sg →
  readSlice (pluginArrs h) (Plugins sg) = Some ps →
  ∃ h',
    runFilter call s h = Some (tt, h')
    ∧ next h' = next h
    ∧ checkObjs h' = checkObjs h
    ∧ (∀ s', s' ≠ s → sigObjs h' !! s' = sigObjs h !! s')
    ∧ (∀ q, q ∉ ps → pluginObjs h' !! q = pluginObjs h !! q)
    ∧ (∀ a, a ≠ s_arr (Plugins sg) → pluginArrs h' !! a = pluginArrs h !! a)
    ∧ (∀ a, (∀ q ql, q ∈ ps → pluginObjs h !! q = Some ql →
                     0 < s_len (Checks ql) → a ≠ s_arr (Checks ql)) →
            checkArrs h' !! a = checkArrs h !! a).
Proof.
  intros Hwf Hs Hps.
  destruct (runFilter_spec_frame call h s sg ps Hwf Hs Hps)
    as (h' & Hrun & Eco & Eso & _ & _ & (En & Hop & Hoa) & Hpa).
  exists h'. split_and!; try done.
  intros s' Hne. by rewrite Eso, lookup_insert_ne.
Qed.

(** X9: a [Signatures] just made by [NewSignatures] can be filtered: the
    call ends without a panic and the set stays empty. *)
Theorem NewSignatures_filter call h :
  ∃ s h0 h1,
    NewSignatures h = Some (s, h0)
    ∧ view h0 s = Some []
    ∧ runFilter call s h0 = Some (tt, h1)
    ∧ view h1 s = Some [].
Proof.
  eexists _, _. 
  assert (wf (setNext (S (next h))
               (setSigObjs
                  (<[next h := {| Plugins := {| s_arr := nil; s_off := 0;
                                                s_len := 0; s_cap := 0 |} |}]>
                     (sigObjs h)) h)) (next h)) as Hwf.
  { eexists _, []. cbn. rewrite lookup_insert_eq. split; [done|]. split; [done|].
    split; [done|]. split; [constructor|].
    split; [by intros p ?%elem_of_nil | by intros p q ? ? ?%elem_of_nil]. }
  assert (view (setNext (S (next h))
               (setSigObjs
                  (<[next h := {| Plugins := {| s_arr := nil; s_off := 0;
                                                s_len := 0; s_cap := 0 |} |}]>
                     (sigObjs h)) h)) (next h) = Some []) as Hv.
  { unfold view, pluginList. cbn. by rewrite lookup_insert_eq. }
  destruct (runFilter_view call _ _ _ Hwf Hv) as (h1 & R1 & _ & _ & V1).
  exists h1. split; [reflexivity|]. split; [exact Hv|]. split; [exact R1|]. exact V1.
Qed.

End FilterChains.

Lemma filters_commute_witness :
  ∃ h1 h12 h2 h21,
    core.FilterBySeverity (H := Spec.exampleRuntime) 40 "High" Spec.exampleHeap = Some (tt, h1)
    ∧ core.FilterByNames (H := Spec.exampleRuntime) 40 ["panel "] h1 = Some (tt, h12)
    ∧ core.FilterByNames (H := Spec.exampleRuntime) 40 ["panel "] Spec.exampleHeap
      = Some (tt, h2)
    ∧ core.FilterBySeverity (H := Spec.exampleRuntime) 40 "High" h2 = Some (tt, h21)
    ∧ Spec.view h12 40 = Some [(12, [3])]
    ∧ Spec.view h21 40 = Some [(12, [3])].
Proof.
  destruct (filters_commute (H := Spec.exampleRuntime) (Spec.BySeverity "High")
              (Spec.ByNames ["panel "]) Spec.exampleHeap 40 _ exampleHeap_wf exampleHeap_view)
    as (h1 & h12 & h2 & h21 & R1 & R12 & R2 & R21 & V12 & V21).
  assert (Spec.view h12 40 = Some [(12, [3])]) as V
    by (rewrite V12; vm_compute; reflexivity).
  exists h1, h12, h2, h21. split_and!; try done. by rewrite V21.
Defined.

Lemma FilterBySeverity_twice_empty_witness :
  ∃ h1 h2,
    core.FilterBySeverity (H := Spec.exampleRuntime) 40 "High" Spec.exampleHeap = Some (tt, h1)
    ∧ core.FilterBySeverity (H := Spec.exampleRuntime) 40 "Low" h1 = Some (tt, h2)
    ∧ Spec.view h2 40 = Some [].
Proof.
  apply (FilterBySeverity_twice_empty (H := Spec.exampleRuntime) Spec.exampleHeap 40
           "High" "Low" _ exampleHeap_wf exampleHeap_view).
  done.
Defined.

Lemma FilterByNames_no_name_witness :
  ∃ h1, core.FilterByNames (H := Spec.exampleRuntime) 40 [] Spec.exampleHeap = Some (tt, h1)
        ∧ Spec.view h1 40 = Some [].
Proof. apply (FilterByNames_no_name (H := Spec.exampleRuntime)), exampleHeap_wf. Defined.

Lemma FilterByNames_empty_name_witness :
  ∃ h1, core.FilterByNames (H := Spec.exampleRuntime) 40 ["none"; ""] Spec.exampleHeap
          = Some (tt, h1)
        ∧ Spec.view h1 40 = Some [(10, [1; 2]); (11, [2]); (12, [2; 3])].
Proof.
  destruct (FilterByNames_empty_name (H := Spec.exampleRuntime) Spec.exampleHeap 40
              ["none"; ""] _ exampleHeap_wf exampleHeap_view)
    as (h1 & R1 & V1).
  { apply list_elem_of_further, list_elem_of_here. }
  exists h1. split; [exact R1|]. rewrite V1. reflexivity.
Defined.

Lemma filter_leaves_rest_witness :
  ∃ h', Spec.runFilter (H := Spec.exampleRuntime) (Spec.BySeverity "High") 40
          Spec.exampleHeap = Some (tt, h')
        ∧ core.next h' = 50
        ∧ core.pluginObjs h' !! 13 = None.
Proof.
  destruct (filter_leaves_rest (H := Spec.exampleRuntime) (Spec.BySeverity "High")
              Spec.exampleHeap 40 {| core.Plugins := Spec.wholeSlice 30 3 |} [10; 11; 12]
              exampleHeap_wf eq_refl eq_refl)
    as (h' & Hrun & En & _ & _ & Hop & _).
  exists h'. split; [exact Hrun|]. split; [exact En|].
  rewrite Hop; [reflexivity|].
  intros Hin. rewrite !elem_of_cons, elem_of_nil in Hin. lia.
Defined.

(** ** The [plugins] command *)

Section PluginsCommand.

Import core Spec.
Context `{GoRuntime}.

(** A loop that only reads the store is a fold over the elements the
    slice shows. *)
Lemma rangeFrom_readonly {A} k sl (body : loc → A → M A) (f : loc → A → A) xs h n i acc :
  readSlice (arrays k h) sl = Some xs →
  (∀ x a, x ∈ xs → body x a h = Some (f x a, h)) →
  i + n = s_len sl →
  rangeFrom k sl body n i acc h = Some (foldl (λ a x, f x a) acc (drop i xs), h).
Proof.
  intros Hr Hbody. destruct (readSlice_Some _ _ _ Hr) as [Hlen Harr].
  revert i acc. induction n as [|n IH]; intros i acc Hi.
  - rewrite drop_ge by lia. done.
  - destruct Harr as (arr & Ha & Hb & Hxs); [lia|].
    destruct (lookup_lt_is_Some_2 xs i) as [x Hx]; [lia|].
    cbn [rangeFrom].
    assert (index k sl i h = Some (x, h)) as Hidx.
    { unfold index. destruct (Nat.ltb_spec i (s_len sl)); [|lia]. rewrite Ha.
      rewrite Hxs, lookup_take_lt, lookup_drop in Hx by lia. by rewrite Hx. }
    rewrite (bind_Some _ _ _ _ _ Hidx).
    rewrite (bind_Some _ _ _ _ _ (Hbody x acc (proj2 (list_elem_of_lookup _ _) (ex_intro _ i Hx)))).
    rewrite IH by lia. by rewrite (drop_S _ _ _ Hx).
Qed.

Lemma range_readonly {A} k sl (body : loc → A → M A) (f : loc → A → A) xs h acc :
  readSlice (arrays k h) sl = Some xs →
  (∀ x a, x ∈ xs → body x a h = Some (f x a, h)) →
  range k sl body acc h = Some (foldl (λ a x, f x a) acc xs, h).
Proof.
  intros Hr Hbody. unfold range.
  by rewrite (rangeFrom_readonly k sl body f xs h _ 0 acc Hr Hbody).
Qed.

Lemma checkRows_app h pl cs cs' :
  checkRows h pl (cs ++ cs') = checkRows h pl cs ++ checkRows h pl cs'.
Proof. unfold checkRows. apply bind_app. Qed.

(** The inner loop appends the rows of the checks with the severity
    asked for and counts them. *)
Lemma checks_fold h pl sevStr cs t :
  (∀ c, c ∈ cs → is_Some (checkObjs h !! c)) →
  let kept := List.filter (keepsPtr (BySeverity sevStr) h) cs in
  foldl (λ t c, match checkObjs h !! c with
                | Some ck =>
                    if String.eqb sevStr (Severity ck)
                    then {| main.rows := main.rows t ++ [rowOf pl ck];
                            main.cpt := S (main.cpt t) |}
                    else t
                | None => t
                end) t cs
  = {| main.rows := main.rows t ++ checkRows h pl kept;
       main.cpt := main.cpt t + length (checkRows h pl kept) |}.
Proof.
  revert t. induction cs as [|c cs IH]; intros t Hvalid kept.
  - cbn. rewrite app_nil_r, Nat.add_0_r. by destruct t.
  - destruct (Hvalid c) as [ck Hck]; [apply list_elem_of_here|].
    assert (keepsPtr (BySeverity sevStr) h c = String.eqb sevStr (Severity ck)) as Hk
      by (unfold keepsPtr; rewrite Hck; apply String.eqb_sym).
    cbn [foldl]. rewrite Hck.
    subst kept. cbn [List.filter]. rewrite Hk.
    rewrite IH by (intros c' Hc'; apply Hvalid; by apply list_elem_of_further).
    destruct (String.eqb sevStr (Severity ck)); cbv iota; [|done].
    cbn [main.rows main.cpt].
    change (c :: ?l) with ([c] ++ l). rewrite checkRows_app.
    assert (checkRows h pl [c] = [rowOf pl ck]) as ->
      by (unfold checkRows; cbn; by rewrite Hck).
    rewrite <- app_assoc. cbn [app length]. f_equal. lia.
Qed.

Lemma rowsOf_cons h p cs v :
  rowsOf h ((p, cs) :: v)
  = match pluginObjs h !! p with
    | Some pl => checkRows h pl cs
    | None => []
    end ++ rowsOf h v.
Proof. reflexivity. Qed.

Lemma rowsOf_filter_nonempty h v :
  rowsOf h (List.filter (λ pc, (0 <? length pc.2)) v) = rowsOf h v.
Proof.
  induction v as [|[p cs] v IH]; [done|].
  rewrite rowsOf_cons, <- IH.
  change (List.filter ?f ((p, cs) :: v))
    with (if (0 <? length cs) then (p, cs) :: List.filter f v else List.filter f v).
  destruct cs as [|c cs].
  - change (0 <? length []) with false. cbv iota.
    by destruct (pluginObjs h !! p).
  - change (0 <? length (c :: cs)) with true. cbv iota.
    by rewrite rowsOf_cons.
Qed.

(** X10: on a signature set as loading builds it, the [plugins] command
    changes nothing in the store; its table has one row for each check
    whose severity is the one asked for, in the order of the file, which
    are the checks [FilterBySeverity] keeps for that severity, and the
    count of its footer is the number of its rows. *)
Theorem cmdPlugins_lists_filtered h s sevStr v :
  wf h s →
  view h s = Some v →
  ∃ t h1 v1,
    main.cmdPlugins s sevStr h = Some (t, h)
    ∧ FilterBySeverity s sevStr h = Some (tt, h1)
    ∧ view h1 s = Some v1
    ∧ main.rows t = rowsOf h v1
    ∧ main.cpt t = length (main.rows t).
Proof.
  intros Hwf Hv.
  destruct (runFilter_view (BySeverity sevStr) h s v Hwf Hv) as (h1 & R1 & _ & _ & V1).
  destruct Hwf as (sg & ps & Hs & _ & Hps & _ & Hpl & _).
  destruct (view_inv _ _ _ Hv) as (ps' & Hps' & _ & ->).
  assert (ps' = ps) as -> by (unfold pluginList in Hps'; rewrite Hs in Hps'; congruence).
  set (keep := keepsPtr (BySeverity sevStr) h) in *.
  set (g := λ (p : loc) (t : main.Table),
         let kept := List.filter keep (default [] (pluginChecks h p)) in
         match pluginObjs h !! p with
         | Some pl =>
             {| main.rows := main.rows t ++ checkRows h pl kept;
                main.cpt := main.cpt t + length (checkRows h pl kept) |}
         | None => t
         end).
  assert (main.cmdPlugins s sevStr h
          = Some (foldl (λ t p, g p t) {| main.rows := []; main.cpt := 0 |} ps, h)) as Hrun.
  { unfold main.cmdPlugins.
    erewrite bind_Some; [|unfold loadSignatures; by rewrite Hs].
    apply (range_readonly OfPlugins (Plugins sg) _ g ps h); [done|].
    intros p t Hp. destruct (Hpl p Hp) as (pl & cs & Hpl' & _ & Hcs & Hvalid).
    erewrite bind_Some; [|unfold loadPlugin; by rewrite Hpl'].
    erewrite (range_readonly OfChecks (Checks pl) _
                (λ c t, match checkObjs h !! c with
                        | Some ck =>
                            if String.eqb sevStr (Severity ck)
                            then {| main.rows := main.rows t ++ [rowOf pl ck];
                                    main.cpt := S (main.cpt t) |}
                            else t
                        | None => t
                        end) cs h t Hcs).
    - rewrite checks_fold by done. unfold g, pluginChecks. by rewrite Hpl', Hcs.
    - intros c t' Hc. destruct (Hvalid c Hc) as [ck Hck].
      unfold bind, loadCheck. rewrite Hck.
      by destruct (String.eqb sevStr (Severity ck)). }
  eexists _, h1, _. split; [exact Hrun|]. split; [exact R1|]. split; [exact V1|].
  unfold filterSet. rewrite rowsOf_filter_nonempty.
  assert (∀ t,
    let t' := foldl (λ t p, g p t) t ps in
    main.rows t'
    = main.rows t
      ++ rowsOf h (List.map (λ pc, (pc.1, List.filter keep pc.2))
                     ((λ p, (p, default [] (pluginChecks h p))) <$> ps))
    ∧ main.cpt t' = main.cpt t + (length (main.rows t') - length (main.rows t))) as Hfold.
  { clear Hrun Hps Hps' Hv V1 Hpl. induction ps as [|p ps IH]; intros t.
    - cbn. rewrite app_nil_r. split; [done | lia].
    - cbn [foldl]. destruct (IH (g p t)) as [Hr Hc]. cbv zeta in *.
      rewrite Hr in Hc. rewrite Hc, Hr. clear Hr Hc IH.
      rewrite fmap_cons. cbn [List.map fst snd]. rewrite rowsOf_cons.
      unfold g. destruct (pluginObjs h !! p) as [pl|]; cbn [main.rows main.cpt app].
      + rewrite <- app_assoc. split; [done|]. rewrite !length_app. lia.
      + split; [done|]. rewrite !length_app. lia. }
  destruct (Hfold {| main.rows := []; main.cpt := 0 |}) as [Hr Hc]. cbv zeta in *.
  cbn [main.rows main.cpt app] in *. split; [exact Hr|]. rewrite Hc. cbn [length]. lia.
Qed.

End PluginsCommand.

Lemma cmdPlugins_lists_filtered_witness :
  ∃ t, main.cmdPlugins 40 "High" Spec.exampleHeap = Some (t, Spec.exampleHeap)
       ∧ main.row_Name <$> main.rows t = ["Admin-Panel"; "AdminPanel "]
       ∧ main.cpt t = 2.
Proof.
  destruct (cmdPlugins_lists_filtered (H := Spec.exampleRuntime) Spec.exampleHeap 40 "High"
              _ exampleHeap_wf exampleHeap_view)
    as (t & h1 & v1 & Hrun & _ & _ & _ & Hc).
  exists t. split; [exact Hrun|].
  vm_compute in Hrun. injection Hrun as <-. split; reflexivity.
Defined.

(** ** Validation: the order of the checks *)

Section ValidationOrder.

Import app Spec.

Lemma checksFieldsLoop_app l1 l2 :
  checksFieldsLoop (l1 ++ l2)
  = match checksFieldsLoop l1 with
    | Some msg => Some msg
    | None => checksFieldsLoop l2
    end.
Proof.
  induction l1 as [|c l1 IH]; [done|]. cbn [app checksFieldsLoop].
  by destruct (checkFields c).
Qed.

Lemma pluginsFieldsLoop_concat plugins :
  pluginsFieldsLoop plugins = checksFieldsLoop (concat (data.Checks <$> plugins)).
Proof.
  induction plugins as [|p l IH]; [done|].
  rewrite fmap_cons. cbn [pluginsFieldsLoop concat].
  by rewrite checksFieldsLoop_app, IH.
Qed.

Lemma checksFieldsLoop_first checks msg :
  checksFieldsLoop checks = Some msg ↔
  ∃ pre check post,
    checks = pre ++ check :: post
    ∧ Forall validCheck pre ∧ checkFields check = Some msg.
Proof.
  induction checks as [|c l IH]; cbn [checksFieldsLoop].
  - split; [done|]. intros (pre & check & post & E & _). by destruct pre.
  - destruct (checkFields c) as [m|] eqn:Ec.
    + split.
      * intros [= ->]. by exists [], c, l.
      * intros ([|c' pre] & check & post & E & Hpre & Hm); injection E as -> ->.
        -- congruence.
        -- apply Forall_cons in Hpre as [Hc%checkFields_None _]. congruence.
    + rewrite IH. split.
      * intros (pre & check & post & -> & Hpre & Hm).
        exists (c :: pre), check, post. split; [done|]. split; [|done].
        apply Forall_cons. split; [by apply checkFields_None | done].
      * intros ([|c' pre] & check & post & E & Hpre & Hm); injection E as -> ->.
        -- congruence.
        -- apply Forall_cons in Hpre as [_ Hpre]. eauto 6.
Qed.

(** X11: validation stops at the first check, in the order of the
    plugins and of the checks of a plugin, that does not pass: it ends
    with a message exactly when the checks of the configuration, taken in
    that order, split into checks that all pass, then a check whose
    message it is; what follows that check is never looked at. *)
Theorem CheckStructFields_first_failure conf msg :
  CheckStructFields conf = Some msg ↔
  ∃ pre check post,
    concat (data.Checks <$> data.Plugins conf) = pre ++ check :: post
    ∧ Forall validCheck pre ∧ checkFields check = Some msg.
Proof.
  unfold CheckStructFields. rewrite pluginsFieldsLoop_concat.
  apply checksFieldsLoop_first.
Qed.

(** X12: a message validation ends with belongs to a check of a plugin
    of the configuration: either one of the three fields of that check
    is missing and the message contains the plugin name of the check, or
    the three are present, the severity is none of the scale, and the
    message is the fixed text around that severity. *)
Theorem CheckStructFields_message conf msg :
  CheckStructFields conf = Some msg →
  ∃ plugin check,
    plugin ∈ data.Plugins conf ∧ check ∈ data.Checks plugin
    ∧ (((data.Description check = None ∨ data.Remediation check = None
         ∨ data.Severity check = None)
        ∧ GoStrings.Contains msg (data.PluginName check) = true)
       ∨ (∃ sev, data.Description check ≠ None ∧ data.Remediation check ≠ None
                 ∧ data.Severity check = Some sev ∧ severityRank sev = None
                 ∧ msg = " ------ Unknown severity type : " +:+ sev
                         +:+ " . Only Informational / Low / Medium / High are valid severity types.")).
Proof.
  intros Hm. destruct (CheckStructFields_reports conf msg Hm)
    as (plugin & check & Hp & Hc & Hnv & Hmsg).
  exists plugin, check. split; [done|]. split; [done|].
  destruct (data.Description check) as [d|] eqn:Ed;
    [|left; split; [by left | apply checkFields_missing_names_plugin; [done | rewrite Ed; by left]]].
  destruct (data.Remediation check) as [r|] eqn:Er;
    [|left; split; [by right; left | apply checkFields_missing_names_plugin; [done | rewrite Er; by right; left]]].
  destruct (data.Severity check) as [sev|] eqn:Es;
    [|left; split; [by right; right | apply checkFields_missing_names_plugin; [done | rewrite Es; by right; right]]].
  right. exists sev. split; [done|]. split; [done|]. split; [done|]. split.
  - destruct (severityRank sev) eqn:Er'; [|done]. exfalso. apply Hnv.
    unfold validCheck. rewrite Ed, Er, Es. split; [eauto|]. split; [eauto|].
    exists sev. split; [done|]. by rewrite Er'.
  - apply (checkFields_unknown_severity check sev msg); [by rewrite Ed | by rewrite Er | done | done].
Qed.

End ValidationOrder.

Lemma CheckStructFields_message_witness :
  ∃ plugin check,
    plugin ∈ data.Plugins Spec.unknownSeverityConfig ∧ check ∈ data.Checks plugin
    ∧ data.Severity check = Some "Critical".
Proof.
  destruct (CheckStructFields_message Spec.unknownSeverityConfig _ eq_refl)
    as (plugin & check & Hp & Hc & Hmsg).
  exists plugin, check. split; [done|]. split; [done|].
  apply list_elem_of_singleton in Hp as ->. apply list_elem_of_singleton in Hc as ->.
  reflexivity.
Defined.

(** ** The scan: panics, the hits recorded, the shared URL *)

Section ScanRuns.

Import app Spec.
Context `{Pkg}.
Variable y : data.Config.
Variable flags : Flags.
Variable urlList : list string.

Lemma goroutineOf_insert st j g p :
  Forall (goroutineOf y urlList) (gs st) →
  gs st !! j = Some g →
  Forall (λ plugin, plugin ∈ data.Plugins y) (pcPlugins p) →
  Forall (goroutineOf y urlList) (<[j := {| domain := domain g; at_pc := p |}]> (gs st)).
Proof.
  intros Hall Hg Hp. apply Forall_insert; [done|].
  split; [|done]. exact (proj1 (Forall_lookup_1 _ _ _ _ Hall Hg)).
Qed.

(** Every goroutine is one of the scan. *)
Lemma goroutines_reachable st :
  reachable y flags urlList st → Forall (goroutineOf y urlList) (gs st).
Proof.
  induction 1 as [|st st' _ IH Hstep]; [by apply Forall_nil|].
  destruct Hstep as [st dom _ Hd | st j g plugin plugins _ Hg Hpc
                    | st j g plugin fr plugins _ Hg Hpc
                    | st j g plugin url plugins _ Hg Hpc
                    | st j g plugin url plugins resp sh _ Hg Hpc _
                    | st j g plugin url plugins resp _ Hg Hpc _
                    | st j g _ Hg Hpc]; cbn [gs setPc]; try done;
    try (apply goroutineOf_insert; [done | done |];
         pose proof (proj2 (Forall_lookup_1 _ _ _ _ IH Hg)) as Hps;
         rewrite Hpc in Hps; cbn [pcPlugins] in *).
  - apply Forall_app. split; [done|]. apply Forall_singleton. split.
    + by eapply list_elem_of_lookup_2.
    + cbn. by apply Forall_forall.
  - done.
  - done.
  - by apply Forall_cons in Hps as [_ ?].
  - by apply Forall_cons in Hps as [_ ?].
  - done.
Qed.

(** The checks of a plugin run to their end on checks whose severity
    and remediation are there, and panic on a matching check that lacks
    one of them. *)
Lemma checksLoop_total dom plugin resp checks sh :
  Forall (λ check, ¬ unrecordable check) checks →
  is_Some (checksLoop flags dom plugin resp checks sh).
Proof.
  revert sh. induction checks as [|c l IH]; intros sh Hall; cbn [checksLoop]; [eauto|].
  apply Forall_cons in Hall as [Hc Hl].
  destruct (ResponseAnalysis resp c); [|by apply IH].
  destruct (data.Severity c) as [sev|] eqn:Es; [|destruct Hc; by left].
  destruct (data.Remediation c) as [rem|] eqn:Er; [|destruct Hc; by right].
  by apply IH.
Qed.

Lemma checksLoop_None dom plugin resp checks sh :
  checksLoop flags dom plugin resp checks sh = None ↔
  ∃ check, check ∈ checks ∧ ResponseAnalysis resp check = true ∧ unrecordable check.
Proof.
  revert sh. induction checks as [|c l IH]; intros sh; cbn [checksLoop].
  - split; [done|]. by intros (? & ?%elem_of_nil & _).
  - destruct (ResponseAnalysis resp c) eqn:Ea.
    + destruct (data.Severity c) as [sev|] eqn:Es.
      * destruct (data.Remediation c) as [rem|] eqn:Er.
        -- rewrite IH. split.
           ++ intros (check & Hin & Hrest). exists check.
              split; [by apply list_elem_of_further | done].
           ++ intros (check & Hin & Ha & Hu).
              apply elem_of_cons in Hin as [->|Hin]; [|eauto].
              destruct Hu; congruence.
        -- split; [|done]. intros _. exists c.
           split; [apply list_elem_of_here|]. split; [done | by right].
      * split; [|done]. intros _. exists c.
        split; [apply list_elem_of_here|]. split; [done | by left].
    + rewrite IH. split.
      * intros (check & Hin & Hrest). exists check.
        split; [by apply list_elem_of_further | done].
      * intros (check & Hin & Ha & Hu).
        apply elem_of_cons in Hin as [->|Hin]; [congruence | eauto].
Qed.

(** What a panic comes from. *)
Lemma crashed_cause st :
  reachable y flags urlList st → crashed st = true →
  urlList ≠ []
  ∧ ∃ plugin check resp,
      plugin ∈ data.Plugins y ∧ check ∈ data.Checks plugin
      ∧ ResponseAnalysis resp check = true ∧ unrecordable check.
Proof.
  induction 1 as [|st st' Hr IH Hstep]; [done|].
  pose proof (goroutines_reachable st Hr) as Hall.
  destruct Hstep as [st dom _ Hd | st j g plugin plugins Hc Hg Hpc
                    | st j g plugin fr plugins Hc Hg Hpc
                    | st j g plugin url plugins Hc Hg Hpc
                    | st j g plugin url plugins resp sh Hc Hg Hpc _
                    | st j g plugin url plugins resp Hc Hg Hpc Hnone
                    | st j g Hc Hg Hpc]; cbn [crashed setPc]; try congruence.
  intros _. destruct (Forall_lookup_1 _ _ _ _ Hall Hg) as [Hd Hps].
  rewrite Hpc in Hps. cbn [pcPlugins] in Hps. apply Forall_cons in Hps as [Hp _].
  split; [intros E; rewrite E in Hd; by apply elem_of_nil in Hd|].
  apply checksLoop_None in Hnone as (check & Hin & Ha & Hu).
  by exists plugin, check, resp.
Qed.

(** A goroutine at the head of its loop can leave a plugin behind, its
    request having brought no response. *)
Lemma skip_plugin st j g plugin plugins :
  reachable y flags urlList st → crashed st = false →
  gs st !! j = Some g → at_pc g = LoopHead (plugin :: plugins) →
  ∃ st', reachable y flags urlList st' ∧ crashed st' = false
         ∧ gs st' = <[j := {| domain := domain g; at_pc := LoopHead plugins |}]> (gs st).
Proof.
  intros Hr Hc Hg Hpc.
  pose proof (lookup_lt_Some _ _ _ Hg) as Hj.
  pose proof (step_assign y flags urlList st j g plugin plugins Hc Hg Hpc) as S1.
  set (st1 := setPc _ _ _ _ _) in S1.
  assert (gs st1 !! j = Some {| domain := domain g;
            at_pc := CallGet plugin (followRedirectsOf plugin) plugins |}) as Hg1
    by (subst st1; cbn; by apply list_lookup_insert_eq).
  pose proof (step_call y flags urlList st1 j _ plugin _ plugins Hc Hg1 eq_refl) as S2.
  set (st2 := setPc _ _ _ _ _) in S2.
  assert (gs st2 !! j = Some {| domain := domain g;
            at_pc := InGet plugin (tmpURL (shared st1)) plugins |}) as Hg2.
  { subst st2. cbn [gs setPc domain]. apply list_lookup_insert_eq.
    subst st1. cbn. by rewrite length_insert. }
  pose proof (step_no_response y flags urlList st2 j _ plugin _ plugins Hc Hg2 eq_refl) as S3.
  eexists. split; [eapply reach_step; [eapply reach_step; [eapply reach_step|]|]|].
  - exact Hr.
  - exact S1.
  - exact S2.
  - exact S3.
  - split; [done|]. subst st2 st1. cbn. by rewrite !list_insert_insert_eq.
Qed.

Lemma skip_plugins pre st j g plugins :
  reachable y flags urlList st → crashed st = false →
  gs st !! j = Some g → at_pc g = LoopHead (pre ++ plugins) →
  ∃ st', reachable y flags urlList st' ∧ crashed st' = false
         ∧ gs st' = <[j := {| domain := domain g; at_pc := LoopHead plugins |}]> (gs st).
Proof.
  revert st g. induction pre as [|p pre IH]; intros st g Hr Hc Hg Hpc.
  - exists st. split; [done|]. split; [done|]. cbn in Hpc.
    symmetry. destruct g as [d p]. cbn in *. subst p. by apply list_insert_id.
  - destruct (skip_plugin st j g p (pre ++ plugins) Hr Hc Hg Hpc) as (st1 & Hr1 & Hc1 & Hgs1).
    pose proof (lookup_lt_Some _ _ _ Hg) as Hj.
    destruct (IH st1 {| domain := domain g; at_pc := LoopHead (pre ++ plugins) |}
                Hr1 Hc1) as (st2 & Hr2 & Hc2 & Hgs2).
    + rewrite Hgs1. by apply list_lookup_insert_eq.
    + done.
    + exists st2. split; [done|]. split; [done|].
      rewrite Hgs2, Hgs1. cbn. by rewrite list_insert_insert_eq.
Qed.

(** X13: once validation has let the configuration pass, no goroutine
    of the scan panics: whatever the responses and however the
    goroutines interleave, no state the scan reaches is one in which a
    nil severity or remediation was dereferenced. *)
Theorem Scan_validated_never_panics st :
  CheckStructFields y = None →
  reachable y flags urlList st →
  crashed st = false.
Proof.
  intros Hv Hr. destruct (crashed st) eqn:Ec; [|done]. exfalso.
  destruct (crashed_cause st Hr Ec) as (_ & plugin & check & resp & Hp & Hin & _ & Hu).
  apply CheckStructFields_None in Hv.
  pose proof (proj1 (Forall_forall _ _) Hv plugin Hp) as Hchecks. cbn in Hchecks.
  pose proof (proj1 (Forall_forall _ _) Hchecks check Hin) as (_ & [r Hrem] & sev & Hsev & _).
  destruct Hu; congruence.
Qed.

(** X14: the goroutines by themselves, whatever validation said, can
    panic exactly when there is a URL to scan and some check of some
    plugin, matched by some response, has no severity or no remediation;
    a missing description never makes them panic. *)
Theorem Scan_panics_iff :
  (∃ st, reachable y flags urlList st ∧ crashed st = true)
  ↔ urlList ≠ []
    ∧ ∃ plugin check resp,
        plugin ∈ data.Plugins y ∧ check ∈ data.Checks plugin
        ∧ ResponseAnalysis resp check = true ∧ unrecordable check.
Proof.
  split; [intros (st & Hr & Hc); by apply (crashed_cause st)|].
  intros (Hne & plugin & check & resp & Hp & Hin & Ha & Hu).
  destruct urlList as [|d rest] eqn:Hurl; [done|]. rewrite <- Hurl in *.
  apply list_elem_of_split in Hp as (pre & post & Hy).
  assert (reachable y flags urlList
            {| i := 1; gs := [atHead y d]; shared := shared init; crashed := false |}) as Hr0.
  { eapply reach_step; [apply reach_init|].
    apply (step_go y flags urlList init d eq_refl). by rewrite Hurl. }
  destruct (skip_plugins pre _ 0 (atHead y d) (plugin :: post) Hr0 eq_refl eq_refl)
    as (st1 & Hr1 & Hc1 & Hgs1); [cbn; by rewrite Hy|].
  cbn in Hgs1.
  pose proof (step_assign y flags urlList st1 0 _ plugin post Hc1
                ltac:(by rewrite Hgs1) eq_refl) as S1.
  set (st2 := setPc _ _ _ _ _) in S1.
  pose proof (step_call y flags urlList st2 0
                {| domain := d; at_pc := CallGet plugin (followRedirectsOf plugin) post |}
                plugin _ post Hc1 ltac:(subst st2; cbn; by rewrite Hgs1) eq_refl) as S2.
  set (st3 := setPc _ _ _ _ _) in S2.
  assert (checksLoop flags d plugin resp (data.Checks plugin) (shared st3) = None) as Hnone
    by (apply checksLoop_None; eauto).
  pose proof (step_panic y flags urlList st3 0
                {| domain := d; at_pc := InGet plugin (tmpURL (shared st2)) post |}
                plugin _ post resp Hc1 ltac:(subst st3 st2; cbn; by rewrite Hgs1) eq_refl
                Hnone) as S3.
  eexists. split; [eapply reach_step; [eapply reach_step; [eapply reach_step|]|]|].
  - exact Hr1.
  - exact S1.
  - exact S2.
  - exact S3.
  - done.
Qed.

Lemma checksLoop_out dom plugin resp checks sh sh' :
  checksLoop flags dom plugin resp checks sh = Some sh' →
  tmpURL sh' = tmpURL sh
  ∧ ∃ new, out sh' = out sh ++ new
      ∧ Forall (λ o, ∃ check, check ∈ checks ∧ ResponseAnalysis resp check = true
                     ∧ data.out_Domain o = dom
                     ∧ data.out_PluginName o = data.PluginName check
                     ∧ data.out_TestedURL o = data.URI plugin
                     ∧ data.Severity check = Some (data.out_Severity o)
                     ∧ data.Remediation check = Some (data.out_Remediation o)) new.
Proof.
  revert sh. induction checks as [|c l IH]; intros sh; cbn [checksLoop].
  - intros [= <-]. split; [done|]. exists []. by rewrite app_nil_r.
  - assert (∀ sh0, (tmpURL sh' = tmpURL sh0 ∧ ∃ new, out sh' = out sh0 ++ new ∧
              Forall (λ o, ∃ check, check ∈ l ∧ ResponseAnalysis resp check = true
                     ∧ data.out_Domain o = dom
                     ∧ data.out_PluginName o = data.PluginName check
                     ∧ data.out_TestedURL o = data.URI plugin
                     ∧ data.Severity check = Some (data.out_Severity o)
                     ∧ data.Remediation check = Some (data.out_Remediation o)) new) →
            (tmpURL sh' = tmpURL sh0 ∧ ∃ new, out sh' = out sh0 ++ new ∧
              Forall (λ o, ∃ check, check ∈ c :: l ∧ ResponseAnalysis resp check = true
                     ∧ data.out_Domain o = dom
                     ∧ data.out_PluginName o = data.PluginName check
                     ∧ data.out_TestedURL o = data.URI plugin
                     ∧ data.Severity check = Some (data.out_Severity o)
                     ∧ data.Remediation check = Some (data.out_Remediation o)) new)) as Hweak.
    { intros sh0 (Ht & new & Ho & Hnew). split; [done|]. exists new. split; [done|].
      eapply Forall_impl; [exact Hnew|]. intros o (check & Hin & Hrest).
      exists check. split; [by apply list_elem_of_further | done]. }
    destruct (ResponseAnalysis resp c) eqn:Ea; [|intros Hl; apply Hweak; by apply IH].
    destruct (data.Severity c) as [sev|] eqn:Es; [|done].
    destruct (data.Remediation c) as [rem|] eqn:Er; [|done].
    intros Hl. apply IH in Hl. apply Hweak in Hl as (Ht & new & Ho & Hnew).
    cbn in Ht, Ho. split; [done|]. eexists (_ :: new).
    split; [by rewrite Ho, <- app_assoc|].
    apply Forall_cons. split; [|done].
    exists c. cbn. split; [apply list_elem_of_here | done].
Qed.

(** X15: every hit a scan has recorded has the domain of a URL of the
    list, the plugin name, severity and remediation of a check of a
    plugin of the configuration that matched a response, and as its
    tested URL the URI of that plugin as configured, without prefix,
    domain, suffix or query string. *)
Theorem Scan_hits_recorded st :
  reachable y flags urlList st →
  Forall (recordedHit y urlList) (out (shared st)).
Proof.
  induction 1 as [|st st' Hr IH Hstep]; [by apply Forall_nil|].
  pose proof (goroutines_reachable st Hr) as Hall.
  destruct Hstep as [st dom _ Hd | st j g plugin plugins Hc Hg Hpc
                    | st j g plugin fr plugins Hc Hg Hpc
                    | st j g plugin url plugins Hc Hg Hpc
                    | st j g plugin url plugins resp sh Hc Hg Hpc Hsome
                    | st j g plugin url plugins resp Hc Hg Hpc Hnone
                    | st j g Hc Hg Hpc]; cbn [shared setPc setTmpURL out]; try done.
  destruct (Forall_lookup_1 _ _ _ _ Hall Hg) as [Hd Hps].
  rewrite Hpc in Hps. cbn [pcPlugins] in Hps. apply Forall_cons in Hps as [Hp _].
  apply checksLoop_out in Hsome as (_ & new & -> & Hnew).
  apply Forall_app. split; [done|].
  eapply Forall_impl; [exact Hnew|].
  intros o (check & Hin & Ha & Hdom & Hrest).
  exists plugin, check, resp. rewrite Hdom. done.
Qed.

Lemma ownURL_reachable st :
  length urlList ≤ 1 →
  reachable y flags urlList st →
  Forall (λ g, requestsOwnURL flags g ∧ holdsOwnURL flags (shared st) g) (gs st).
Proof.
  intros Hone. induction 1 as [|st st' Hr IH Hstep]; [by apply Forall_nil|].
  pose proof (launched_reachable y flags urlList st Hr) as [Hlen Hi].
  assert (∀ j g, gs st !! j = Some g → gs st = [g] ∧ j = 0) as Hsingle.
  { intros j g Hg. pose proof (lookup_lt_Some _ _ _ Hg) as Hj.
    destruct (gs st) as [|g0 [|g1 l]]; cbn in *; [lia | | lia].
    destruct j; [|lia]. cbn in Hg. by injection Hg as ->. }
  destruct Hstep as [st dom _ Hd | st j g plugin plugins Hc Hg Hpc
                    | st j g plugin fr plugins Hc Hg Hpc
                    | st j g plugin url plugins Hc Hg Hpc
                    | st j g plugin url plugins resp sh Hc Hg Hpc Hsome
                    | st j g plugin url plugins resp Hc Hg Hpc Hnone
                    | st j g Hc Hg Hpc]; cbn [shared gs setPc]; try done;
    try (destruct (Hsingle j g Hg) as [Hgs ->]; rewrite Hgs in *; cbn [insert list_insert];
         apply Forall_singleton; apply Forall_singleton in IH as [IH1 IH2];
         unfold requestsOwnURL, holdsOwnURL in *; rewrite Hpc in *; cbn).
  - apply Forall_app. split; [done|]. by apply Forall_singleton.
  - done.
  - done.
  - done.
  - done.
  - done.
Qed.

(** X16: when the list has a single URL, every request of the scan is
    for the URL built from the domain and the plugin of the goroutine
    that makes it. *)
Theorem Scan_single_url_requests st g :
  length urlList ≤ 1 →
  reachable y flags urlList st →
  g ∈ gs st →
  requestsOwnURL flags g.
Proof.
  intros Hone Hr Hg.
  exact (proj1 (proj1 (Forall_forall _ _) (ownURL_reachable st Hone Hr) g Hg)).
Qed.

(** X17: the URL of a request is read from a variable all the
    goroutines write: with two URLs in the list and a plugin, the scan
    reaches a state in which the goroutine of the first domain has in
    flight the request built for the second, and none for its own. *)
Theorem Scan_requests_other_domain d1 d2 rest plugin plugins :
  urlList = d1 :: d2 :: rest →
  data.Plugins y = plugin :: plugins →
  ∃ st, reachable y flags urlList st
        ∧ gs st !! 0 = Some {| domain := d1;
                                at_pc := InGet plugin (buildURL flags d2 plugin) plugins |}.
Proof.
  intros Hurl Hy.
  pose proof (launch_all y flags urlList 2 ltac:(rewrite Hurl; cbn; lia)) as Hr0.
  rewrite Hurl in Hr0 at 2. cbn [take fmap list_fmap] in Hr0.
  set (st0 := {| i := 2 |}) in Hr0.
  pose proof (step_assign y flags urlList st0 0 (atHead y d1) plugin plugins eq_refl eq_refl
                (f_equal LoopHead Hy)) as S1.
  set (st1 := setPc _ _ _ _ _) in S1.
  pose proof (step_assign y flags urlList st1 1 (atHead y d2) plugin plugins eq_refl eq_refl
                (f_equal LoopHead Hy)) as S2.
  set (st2 := setPc _ _ _ _ _) in S2.
  pose proof (step_call y flags urlList st2 0
                {| domain := d1; at_pc := CallGet plugin (followRedirectsOf plugin) plugins |}
                plugin _ plugins eq_refl eq_refl eq_refl) as S3.
  eexists. split; [eapply reach_step; [eapply reach_step; [eapply reach_step|]|]|].
  - exact Hr0.
  - exact S1.
  - exact S2.
  - exact S3.
  - reflexivity.
Qed.

End ScanRuns.

Lemma Scan_validated_never_panics_witness :
  app.crashed Spec.oneHitState = false.
Proof.
  exact (Scan_validated_never_panics (H := Spec.yesPkg) Spec.adminConfig
           (Spec.flagsBlocking "High") ["a.example"] Spec.oneHitState eq_refl one_hit_run).
Defined.

Lemma Scan_hits_recorded_witness :
  Forall (Spec.recordedHit (H := Spec.yesPkg) Spec.adminConfig ["a.example"])
    (app.out (app.shared Spec.oneHitState)).
Proof.
  exact (Scan_hits_recorded (H := Spec.yesPkg) Spec.adminConfig
           (Spec.flagsBlocking "High") ["a.example"] Spec.oneHitState one_hit_run).
Defined.

(** The scan of one domain up to the call of [pkg.HTTPGet]. *)
Lemma request_run :
  app.reachable (H := Spec.yesPkg) Spec.adminConfig (Spec.flagsBlocking "High")
    ["a.example"] Spec.requestState.
Proof.
  assert (∃ st, app.reachable (H := Spec.yesPkg) Spec.adminConfig
                  (Spec.flagsBlocking "High") ["a.example"] st
                ∧ st = Spec.requestState) as (st & Hr & <-); [|exact Hr].
  eexists. split; [eapply app.reach_step|].
  - eapply app.reach_step.
    { eapply app.reach_step; [apply app.reach_init|].
      by eapply (app.step_go _ _ _ app.init "a.example"). }
    by eapply (app.step_assign _ _ _ _ 0).
  - by eapply (app.step_call _ _ _ _ 0).
  - reflexivity.
Qed.

Lemma Scan_single_url_requests_witness :
  Forall (Spec.requestsOwnURL (Spec.flagsBlocking "High")) (app.gs Spec.requestState).
Proof.
  apply Forall_singleton.
  apply (Scan_single_url_requests (H := Spec.yesPkg) Spec.adminConfig
           (Spec.flagsBlocking "High") ["a.example"] Spec.requestState).
  - cbn. lia.
  - exact request_run.
  - apply list_elem_of_here.
Defined.

Lemma Scan_requests_other_domain_witness :
  ∃ st, app.reachable (H := Spec.yesPkg) Spec.adminConfig (Spec.flagsBlocking "")
          ["a.example"; "b.example"] st
        ∧ app.gs st !! 0
          = Some {| app.domain := "a.example";
                    app.at_pc := app.InGet
                      {| data.URI := "/admin"; data.QueryString := "";
                         data.FollowRedirects := None;
                         data.Checks :=
                           [ {| data.PluginName := "AdminPanel";
                                data.Description := Some "Admin panel exposed";
                                data.Remediation := Some "Restrict access";
                                data.Severity := Some "Medium" |} ] |}
                      "https://b.example/admin" [] |}.
Proof.
  exact (Scan_requests_other_domain (H := Spec.yesPkg) Spec.adminConfig
           (Spec.flagsBlocking "") ["a.example"; "b.example"]
           "a.example" "b.example" [] _ [] eq_refl eq_refl).
Defined.
